(** * A shallow embedding of [src/src/level.rs] and [src/src/wall.rs]

    The model follows a debug build, the profile the crate's tests run in:
    [debug_assert!] is checked, integer overflow panics, and a panic
    (failed assertion, out-of-range [Vec] index, [unreachable!]) is [None]
    in the option monad.  [usize] values are [N], [isize] values are [Z]
    with the range checks of the 64-bit target written out.  Elevations
    ([f32]) are modelled by integers, on which [f32] subtraction, [abs]
    and comparison are exact for the magnitudes used here. *)

From Stdlib Require Import ZArith Lia Ascii.
From stdpp Require Import base list option.

Open Scope N_scope.

(** ** Machine integers *)

(** [n as isize] for an [n : usize] (two's complement reinterpretation). *)
Definition as_isize (n : N) : Z :=
  let z := (Z.of_N n mod 2 ^ 64)%Z in
  if (z <? 2 ^ 63)%Z then z else (z - 2 ^ 64)%Z.

(** [z as usize] for a [z : isize]. *)
Definition isize_as_usize (z : Z) : N := Z.to_N (z mod 2 ^ 64).

Definition isize_in_range (z : Z) : bool := (- 2 ^ 63 <=? z)%Z && (z <? 2 ^ 63)%Z.

(** Checked [isize] arithmetic: overflow panics in a debug build. *)
Definition isize_add (a b : Z) : option Z :=
  if isize_in_range (a + b) then Some (a + b)%Z else None.
Definition isize_sub (a b : Z) : option Z :=
  if isize_in_range (a - b) then Some (a - b)%Z else None.
Definition isize_mul (a b : Z) : option Z :=
  if isize_in_range (a * b) then Some (a * b)%Z else None.
(** [isize::abs] panics on [isize::MIN] in a debug build. *)
Definition isize_abs (a : Z) : option Z :=
  if (a =? - 2 ^ 63)%Z then None else Some (Z.abs a).

(** Checked [usize] arithmetic. *)
Definition usize_add (a b : N) : option N :=
  if a + b <? 2 ^ 64 then Some (a + b) else None.
Definition usize_sub (a b : N) : option N :=
  if b <=? a then Some (a - b) else None.
Definition usize_mul (a b : N) : option N :=
  if a * b <? 2 ^ 64 then Some (a * b) else None.

(** [v[i]] and [v[i] = a] on a [Vec]: out of range panics. *)
Definition vec_get {A} (v : list A) (i : N) : option A := v !! N.to_nat i.
Definition vec_set {A} (v : list A) (i : N) (a : A) : option (list A) :=
  if (N.to_nat i <? length v)%nat then Some (<[N.to_nat i := a]> v) else None.

(** [for i in lo..hi { body }] over a state threaded through [body]. *)
Fixpoint for_upto {S} (fuel : nat) (i : N) (body : N -> S -> option S) (s : S)
  : option S :=
  match fuel with
  | O => Some s
  | S f => s' ← body i s; for_upto f (i + 1) body s'
  end.
Definition for_range {S} (lo hi : N) (body : N -> S -> option S) (s : S) : option S :=
  for_upto (N.to_nat (hi - lo)) lo body s.

(** [Option::is_none]. *)
Definition is_none {A} (o : option A) : bool :=
  match o with None => true | Some _ => false end.

(** ** wall.rs *)

Inductive WallPosition := Left | Right | Top | Bottom.

(** ** level.rs: the [Level] struct *)

Record Level (FT WT : Type) := mkLevel {
  width : N;
  depth : N;
  floor : list Z;
  floor_data : list FT;
  walls_h : list (option WT);
  walls_v : list (option WT);
}.
Arguments mkLevel {FT WT}.
Arguments width {FT WT}.
Arguments depth {FT WT}.
Arguments floor {FT WT}.
Arguments floor_data {FT WT}.
Arguments walls_h {FT WT}.
Arguments walls_v {FT WT}.

Section Level.
Context {FT WT : Type}.
(** [FT::default()]. *)
Context (FT_default : FT).

Implicit Types (l : Level FT WT).

Definition with_floor l (f : list Z) : Level FT WT :=
  mkLevel (width l) (depth l) f (floor_data l) (walls_h l) (walls_v l).
Definition with_floor_data l (f : list FT) : Level FT WT :=
  mkLevel (width l) (depth l) (floor l) f (walls_h l) (walls_v l).
Definition with_walls_h l (h : list (option WT)) : Level FT WT :=
  mkLevel (width l) (depth l) (floor l) (floor_data l) h (walls_v l).
Definition with_walls_v l (v : list (option WT)) : Level FT WT :=
  mkLevel (width l) (depth l) (floor l) (floor_data l) (walls_h l) v.

Definition get_index l (x y : N) : N := y * width l + x.

(** [Level::new].  A [vec!] of more than [isize::MAX] bytes panics with a
    capacity overflow; for [floor_data], [walls_h] and [walls_v] that
    bound depends on the sizes of [FT] and [WT], which are not modelled,
    so [new] is only evaluated at small sizes, where every allocation
    succeeds. *)
Definition new (width depth : N) (default_z : Z) : Level FT WT :=
  mkLevel width depth
    (repeat default_z (N.to_nat (width * depth)))
    (repeat FT_default (N.to_nat (width * depth)))
    (repeat None (N.to_nat ((depth + 1) * width)))
    (repeat None (N.to_nat ((width + 1) * depth))).

Definition in_bounds l (x y : N) : bool := (x <? width l) && (y <? depth l).

Definition z l (x y : N) : option Z :=
  if in_bounds l x y then vec_get (floor l) (get_index l x y) else None.

Definition set_z l (x y : N) (z : Z) : option (Level FT WT) :=
  if in_bounds l x y then
    f ← vec_set (floor l) (get_index l x y) z; Some (with_floor l f)
  else None.

(** [Level::wall]: the index arithmetic stays below the length of the
    backing [Vec] once the assertion holds (lemma [wall_index_bounds]),
    so it is written without overflow checks. *)
Definition wall l (x y : N) (w : WallPosition) : option (option WT) :=
  if in_bounds l x y then
    match w with
    | Bottom => vec_get (walls_h l) (x * (depth l + 1) + y)
    | Left => vec_get (walls_v l) (y * (width l + 1) + x)
    | Right => vec_get (walls_v l) (y * (width l + 1) + x + 1)
    | Top => vec_get (walls_h l) (x * (depth l + 1) + y + 1)
    end
  else None.

Definition set_wall l (x y : N) (w : WallPosition) (data : option WT)
  : option (Level FT WT) :=
  if in_bounds l x y then
    match w with
    | Bottom => h ← vec_set (walls_h l) (x * (depth l + 1) + y) data; Some (with_walls_h l h)
    | Left => v ← vec_set (walls_v l) (y * (width l + 1) + x) data; Some (with_walls_v l v)
    | Right => v ← vec_set (walls_v l) (y * (width l + 1) + x + 1) data; Some (with_walls_v l v)
    | Top => h ← vec_set (walls_h l) (x * (depth l + 1) + y + 1) data; Some (with_walls_h l h)
    end
  else None.

Definition set_floor_data l (x y : N) (data : FT) : option (Level FT WT) :=
  if in_bounds l x y then
    f ← vec_set (floor_data l) (get_index l x y) data; Some (with_floor_data l f)
  else None.

(** [Level::floor_data], the getter (the field takes the name). *)
Definition floor_data_at l (x y : N) : option FT :=
  if in_bounds l x y then vec_get (floor_data l) (get_index l x y) else None.

(** [Level::add_border_walls]: [depth - 1] and [width - 1] are evaluated
    inside the loop bodies. *)
Definition add_border_walls l (data : WT) : option (Level FT WT) :=
  let depth := depth l in
  let width := width l in
  l ← for_range 0 width (fun x l =>
        l ← set_wall l x 0 Bottom (Some data);
        dm ← usize_sub depth 1;
        set_wall l x dm Top (Some data)) l;
  for_range 0 depth (fun y l =>
        l ← set_wall l 0 y Left (Some data);
        wm ← usize_sub width 1;
        set_wall l wm y Right (Some data)) l.

(** [(a - b).abs() >= threshold] on integer heights, computed exactly.
    The [f32] subtraction rounds in general; it is exact when [|a|] and
    [|b|] are at most [2 ^ 23], and the statements that depend on the
    test assume such heights. *)
Definition cliff (a b threshold : Z) : bool := (threshold <=? Z.abs (a - b))%Z.

(** [Level::add_cliff_walls]. *)
Definition add_cliff_walls l (threshold : Z) (data : WT) : option (Level FT WT) :=
  wm ← usize_sub (width l) 1;
  for_range 0 wm (fun x l =>
    dm ← usize_sub (depth l) 1;
    for_range 0 dm (fun y l =>
      z0 ← z l x y;
      z_right ← z l (x + 1) y;
      z_top ← z l x (y + 1);
      l ← (if cliff z0 z_top threshold then set_wall l x y Top (Some data)
           else Some l);
      if cliff z0 z_right threshold then set_wall l x y Right (Some data)
      else Some l) l) l.

(** [Level::is_move_possible].  The diagonal branch calls the function
    again; [diag] bounds how often that may nest (the source needs one
    level: lemma [is_move_possible_fuel] shows more changes nothing). *)
Fixpoint is_move_possible_n (diag : nat) l (start_pos end_pos : N * N)
  : option bool :=
  if decide (start_pos = end_pos) then Some true
  else if (width l <=? end_pos.1) || (depth l <=? end_pos.2) then Some false
  else
    dx ← isize_sub (as_isize end_pos.1) (as_isize start_pos.1);
    dy ← isize_sub (as_isize end_pos.2) (as_isize start_pos.2);
    adx ← isize_abs dx;
    ady ← isize_abs dy;
    if (adx >? 1)%Z || (ady >? 1)%Z then Some false
    else if (adx + ady =? 2)%Z then
      match diag with
      | O => None
      | S d =>
          ix ← isize_add (as_isize start_pos.1) dx;
          let intermediate := (isize_as_usize ix, start_pos.2) in
          (b1 ← is_move_possible_n d l start_pos intermediate;
          b2 ← (if (b1 : bool) then is_move_possible_n d l intermediate end_pos else Some false);
          if b1 && b2 then Some true
          else
            iy ← isize_add (as_isize start_pos.2) dy;
            let intermediate := (start_pos.1, isize_as_usize iy) in
            (b3 ← is_move_possible_n d l start_pos intermediate;
             if (b3 : bool) then is_move_possible_n d l intermediate end_pos else Some false))
      end
    else
      match dx, dy with
      | 1%Z, 0%Z => w ← wall l start_pos.1 start_pos.2 Right; Some (is_none w)
      | (-1)%Z, 0%Z => w ← wall l start_pos.1 start_pos.2 Left; Some (is_none w)
      | 0%Z, 1%Z => w ← wall l start_pos.1 start_pos.2 Top; Some (is_none w)
      | 0%Z, (-1)%Z => w ← wall l start_pos.1 start_pos.2 Bottom; Some (is_none w)
      | _, _ => None
      end.

Definition is_move_possible l (start_pos end_pos : N * N) : option bool :=
  is_move_possible_n 1 l start_pos end_pos.

End Level.

(** ** Visibility

    The ray march of [visible_from] computes its sample points with [f32]
    [cos], [sin] and [round], which this development does not reproduce:
    the samples are an argument.  [rays] lists, for every angle [theta] of
    the outer [while theta <= two_pies] loop, the points of the inner
    [while x * x + y * y < max_dist] loop in order; each point records the
    rounded [f32] values the loop body reads.  Every statement below holds
    for all such lists, hence for the one the floating-point code yields.

    Such a list exists only when the outer loop ends.  [theta] grows by
    [dtheta = 2 * PI / (10 * radius)] rounded to [f32]; below [2 * PI] an
    [f32] is at most [2 ^ -21] from the next one, so the sum moves [theta]
    whenever [dtheta > 2 ^ -22].  That holds for [radius <= 2 ^ 21]
    ([dtheta >= 1.25 * 2 ^ -22]).  From [radius] about [2.64 * 10 ^ 6] on,
    [theta + dtheta] rounds back to [theta = 4] and the loop never ends;
    the statements about [visible_from] therefore assume
    [radius <= 2 ^ 21].  The inner loop ends for such radii: the larger of
    [|dx|] and [|dy|] is at least [0.7], more than half the spacing of the
    [f32] values up to [2 ^ 22], so that coordinate grows in magnitude at
    every step until [x * x + y * y] reaches [max_dist]. *)
Record sample := mk_sample {
  s_abs_x : Z;  (** [(x + pos.0 as f32).round()] *)
  s_abs_y : Z;  (** [(y + pos.1 as f32).round()] *)
  s_x : Z;      (** [(x as f32).round()] *)
  s_y : Z;      (** [(y as f32).round()] *)
}.

(** [as usize] / [as isize] on an integral [f32]: saturating casts. *)
Definition f32_as_usize (v : Z) : N :=
  if (v <? 0)%Z then 0 else if (2 ^ 64 <=? v)%Z then 2 ^ 64 - 1 else Z.to_N v.
Definition f32_as_isize (v : Z) : Z :=
  if (v <? - 2 ^ 63)%Z then (- 2 ^ 63)%Z
  else if (2 ^ 63 <=? v)%Z then (2 ^ 63 - 1)%Z else v.

(** A [Vec] of [n] elements of [size] bytes can be allocated only when it
    stays within [isize::MAX] bytes; the [vec!]/[push] calls panic
    otherwise.  [Vec<bool>] is 24 bytes on the 64-bit target. *)
Definition alloc_ok (n size : N) : bool := n * size <? 2 ^ 63.

Section Visibility.
Context {FT WT : Type}.
Implicit Types (l : Level FT WT).

(** [res[i][j] = true]. *)
Definition mark (res : list (list bool)) (i j : N) : option (list (list bool)) :=
  row ← vec_get res i; row ← vec_set row j true; vec_set res i row.

(** One iteration of the inner loop of [visible_from] per sample:
    [continue] goes on with the next sample, [break] ends the ray. *)
Fixpoint march l (pos : N * N) (radius : N) (samples : list sample)
    (prev : N * N) (res : list (list bool)) : option (list (list bool)) :=
  match samples with
  | [] => Some res
  | s :: rest =>
      if (s_abs_x s <? 0)%Z || (s_abs_y s <? 0)%Z then march l pos radius rest prev res
      else
        let abs_x := f32_as_usize (s_abs_x s) in
        let abs_y := f32_as_usize (s_abs_y s) in
        if (abs_x =? prev.1) && (abs_y =? prev.2) then march l pos radius rest prev res
        else
          b ← is_move_possible l prev (abs_x, abs_y);
          if (b : bool) then
            i ← isize_add (f32_as_isize (s_x s)) (as_isize radius);
            j ← isize_add (f32_as_isize (s_y s)) (as_isize radius);
            ni ← isize_mul 2 (as_isize radius); ni ← isize_add ni 1;
            if (i <? 0)%Z || (ni <=? i)%Z then march l pos radius rest prev res
            else
              nj ← isize_mul 2 (as_isize radius); nj ← isize_add nj 1;
              if (j <? 0)%Z || (nj <=? j)%Z then march l pos radius rest prev res
              else
                res ← mark res (Z.to_N i) (Z.to_N j);
                march l pos radius rest (abs_x, abs_y) res
          else Some res
  end.

(** The outer loop: every ray computes [radius * radius] and starts
    again from [prev = pos]. *)
Fixpoint march_rays l (pos : N * N) (radius : N) (rays : list (list sample))
    (res : list (list bool)) : option (list (list bool)) :=
  match rays with
  | [] => Some res
  | ray :: rays =>
      _ ← usize_mul radius radius; (* [let max_dist = (radius * radius) as f32] *)
      res ← march l pos radius ray pos res; march_rays l pos radius rays res
  end.

(** [Level::visible_from]. [2 * radius + 1] cannot wrap: the matrix of
    that many rows has to be allocated first. *)
Definition visible_from (rays : list (list sample)) l (pos : N * N) (radius : N)
  : option (list (list bool)) :=
  let n := 2 * radius + 1 in
  if alloc_ok n 24 && alloc_ok n 1 then
    let res := repeat (repeat false (N.to_nat n)) (N.to_nat n) in
    res ← mark res radius radius;
    _ ← usize_mul 10 radius; (* [let steps = 10 * radius] *)
    march_rays l pos radius rays res
  else None.

(** [Level::visibility]: the bounds are computed eagerly, the closure
    indexes the matrix. *)
Definition visibility (rays : list (list sample)) l (pos : N * N) (radius : N)
  : option (N -> N -> option bool) :=
  matrix ← visible_from rays l pos radius;
  a ← usize_add pos.1 radius; wm ← usize_sub (width l) 1;
  ub0 ← (if wm <=? a then usize_sub (width l) 1 else usize_add pos.1 radius);
  b ← usize_add pos.2 radius; wm' ← usize_sub (width l) 1;
  ub1 ← (if wm' <=? b then usize_sub (depth l) 1 else usize_add pos.2 radius);
  lb0 ← (if radius <? pos.1 then usize_sub pos.1 radius else Some 0);
  lb1 ← (if radius <? pos.2 then usize_sub pos.2 radius else Some 0);
  Some (fun x y =>
    if (x <? lb0) || (ub0 <? x) || (y <? lb1) || (ub1 <? y) then Some false
    else
      i ← usize_add x radius; i ← usize_sub i pos.1;
      j ← usize_add y radius; j ← usize_sub j pos.2;
      row ← vec_get matrix i; vec_get row j).

End Visibility.

(** ** [Level::to_ascii]

    The [String] is a list of characters.  Each iteration of the inner
    loop pushes one piece of text: [" @ "] or ["###"] with [push_str], or
    the three characters of a visible tile with three [push] calls;
    [to_ascii_tile] computes that piece.  Each row ends with ['\n']. *)
Section Ascii.
Context {FT WT : Type}.
Implicit Types (l : Level FT WT).

(** [Option::is_some]. *)
Definition is_some {A} (o : option A) : bool :=
  match o with Some _ => true | None => false end.

Definition at_sign : list ascii := [" "%char; "@"%char; " "%char].
Definition hashes : list ascii := ["#"%char; "#"%char; "#"%char].
Definition newline : ascii := "010"%char.

(** The body of the inner loop at [(x, y)]; [||] evaluates its operands
    from the left and stops at the first [true]. *)
Definition to_ascii_tile l (visible : list (list bool)) (pos : N * N) (radius : N)
    (x y : N) : option (list ascii) :=
  if decide ((x, y) = pos) then Some at_sign
  else
    x_v ← isize_sub (as_isize x) (as_isize pos.1); x_v ← isize_add x_v (as_isize radius);
    y_v ← isize_sub (as_isize y) (as_isize pos.2); y_v ← isize_add y_v (as_isize radius);
    outside ← (if (x_v <? 0)%Z then Some true
               else r2 ← isize_mul 2 (as_isize radius);
               if (r2 <? x_v)%Z then Some true
               else if (y_v <? 0)%Z then Some true
               else r2 ← isize_mul 2 (as_isize radius); Some (r2 <? y_v)%Z);
    if (outside : bool) then Some hashes
    else
      row ← vec_get visible (isize_as_usize x_v);
      b ← vec_get row (isize_as_usize y_v);
      if negb b then Some hashes
      else
        wl ← wall l x y Left;
        let c1 := if is_some wl then "|"%char else " "%char in
        wt ← wall l x y Top;
        both ← (if is_some wt then wb ← wall l x y Bottom; Some (is_some wb) else Some false);
        c2 ← (if (both : bool) then Some "="%char
              else wt ← wall l x y Top;
              if is_some wt then Some "_"%char
              else wb ← wall l x y Bottom;
              Some (if is_some wb then "-"%char else " "%char));
        wr ← wall l x y Right;
        let c3 := if is_some wr then "|"%char else " "%char in
        Some [c1; c2; c3].

Definition to_ascii (rays : list (list sample)) l (pos : N * N) (radius : N)
  : option (list ascii) :=
  visible ← visible_from rays l pos radius;
  for_range 0 (depth l) (fun y res =>
    res ← for_range 0 (width l) (fun x res =>
      piece ← to_ascii_tile l visible pos radius x y; Some (res ++ piece)) res;
    Some (res ++ [newline])) [].

End Ascii.

(** ** The representation invariant of a [Level]

    The fields are private: every [Level] comes from [new] and the
    mutators below.  Its [Vec]s have the lengths [new] gives them, and the
    wall vectors ([Option<WT>] takes at least one byte) stay within
    [isize::MAX] bytes, the limit of a Rust allocation. *)
Record wf {FT WT} (l : Level FT WT) : Prop := {
  wf_floor : length (floor l) = N.to_nat (width l * depth l);
  wf_floor_data : length (floor_data l) = N.to_nat (width l * depth l);
  wf_walls_h : length (walls_h l) = N.to_nat ((depth l + 1) * width l);
  wf_walls_v : length (walls_v l) = N.to_nat ((width l + 1) * depth l);
  wf_walls_h_max : (depth l + 1) * width l < 2 ^ 63;
  wf_walls_v_max : (width l + 1) * depth l < 2 ^ 63;
}.

(** ** Wall slots

    [slot] is the (vector, index) pair [wall] and [set_wall] address:
    [true] is [walls_h], [false] is [walls_v]. *)
Section Slots.
Context {FT WT : Type}.
Implicit Types (l : Level FT WT).

Definition slot l (x y : N) (w : WallPosition) : bool * N :=
  match w with
  | Bottom => (true, x * (depth l + 1) + y)
  | Left => (false, y * (width l + 1) + x)
  | Right => (false, y * (width l + 1) + x + 1)
  | Top => (true, x * (depth l + 1) + y + 1)
  end.

Definition walls_of l (h : bool) : list (option WT) := if h then walls_h l else walls_v l.

End Slots.

(** ** Vocabulary of the statements *)
Section Vocabulary.
Context {FT WT : Type}.
Implicit Types (l : Level FT WT).

(** No wall: the slot [wall] reads holds [None]. *)
Definition wall_open l (x y : N) (w : WallPosition) : bool :=
  match wall l x y w with Some None => true | _ => false end.

(** The wall a single step [(dx, dy)] crosses at its start tile. *)
Definition step_dir (dx dy : Z) : WallPosition :=
  if (0 <? dx)%Z then Right else if (dx <? 0)%Z then Left
  else if (0 <? dy)%Z then Top else Bottom.

(** An edge that is not on the grid boundary: the tile across it is in
    bounds. *)
Definition interior_edge l (x y : N) (w : WallPosition) : bool :=
  match w with
  | Left => 0 <? x
  | Right => x + 1 <? width l
  | Bottom => 0 <? y
  | Top => y + 1 <? depth l
  end.

End Vocabulary.

(** [m[i][j]], [None] out of range. *)
Definition cell (m : list (list bool)) (i j : N) : option bool :=
  row ← m !! N.to_nat i; row !! N.to_nat j.

(** [m] has [n] rows of [n] cells. *)
Definition square (n : N) (m : list (list bool)) : Prop :=
  length m = N.to_nat n /\ Forall (fun row => length row = N.to_nat n) m.

(** A sample of the inner loop of [visible_from]: the loop runs while
    [x * x + y * y < radius * radius] and then moves [(x, y)] by a unit
    vector, so the rounded [x] and [y] are at most [radius + 1] away
    from [0]. *)
Definition sample_near (radius : N) (s : sample) : bool :=
  (Z.abs (s_x s) <=? Z.of_N radius + 1)%Z && (Z.abs (s_y s) <=? Z.of_N radius + 1)%Z.

Section BorderDefs.
Context {FT WT : Type}.
Implicit Types (l : Level FT WT).

(** The slots the first loop of [add_border_walls] has written after [k]
    iterations, and those of the second loop. *)
Definition h_border (D k : N) (sl : bool * N) : Prop :=
  sl.1 = true /\ exists x, x < k /\ (sl.2 = x * (D + 1) \/ sl.2 = x * (D + 1) + D).
Definition v_border (W k : N) (sl : bool * N) : Prop :=
  sl.1 = false /\ exists y, y < k /\ (sl.2 = y * (W + 1) \/ sl.2 = y * (W + 1) + W).

(** The state of the level while [add_border_walls] runs: the slots of
    [written] hold the payload, every other in-bounds wall is unchanged. *)
Definition border_state l0 (p : WT) (written : bool * N -> Prop) l : Prop :=
  wf l /\ width l = width l0 /\ depth l = depth l0 /\
  forall x y w, x < width l0 -> y < depth l0 ->
    (written (slot l0 x y w) -> wall l x y w = Some (Some p)) /\
    (~ written (slot l0 x y w) -> wall l x y w = wall l0 x y w).

End BorderDefs.

Section ExtraDefs.
Context {FT WT : Type}.
Implicit Types (l : Level FT WT).

(** Both tiles are in bounds and their heights differ by at least
    [threshold]. *)
Definition steep l (threshold : Z) (x y x' y' : N) : bool :=
  match z l x y, z l x' y' with Some a, Some b => cliff a b threshold | _, _ => false end.

(** The slots of the edges the loops of [add_cliff_walls] visit, at the
    tiles [(x, y)] with [x < width - 1] and [y < depth - 1], whose two
    tiles are [steep]: the Top edge against [(x, y + 1)] and the Right
    edge against [(x + 1, y)]. *)
Definition cliff_edges l threshold (sl : bool * N) : Prop :=
  exists x y, x + 1 < width l /\ y + 1 < depth l /\
    ((steep l threshold x y x (y + 1) = true /\ sl = slot l x y Top) \/
     (steep l threshold x y (x + 1) y = true /\ sl = slot l x y Right)).

(** Those of them visited before the iteration [y = j] of the inner loop
    for [x = k]. *)
Definition cliff_edges_upto l threshold (k j : N) (sl : bool * N) : Prop :=
  exists x y, x + 1 < width l /\ y + 1 < depth l /\ (x < k \/ (x = k /\ y < j)) /\
    ((steep l threshold x y x (y + 1) = true /\ sl = slot l x y Top) \/
     (steep l threshold x y (x + 1) y = true /\ sl = slot l x y Right)).

(** The three characters of a tile [to_ascii] shows: ['|'] for a Left or
    a Right wall; ['='], ['_'] or ['-'] for walls at the Top and the
    Bottom, at the Top only, at the Bottom only. *)
Definition wall_glyphs l (x y : N) : list ascii :=
  [if wall_open l x y Left then " "%char else "|"%char;
   if wall_open l x y Top
   then (if wall_open l x y Bottom then " "%char else "-"%char)
   else (if wall_open l x y Bottom then "_"%char else "="%char);
   if wall_open l x y Right then " "%char else "|"%char].

End ExtraDefs.

(** The text of tile [(x, y)], the output being cut into rows and each row
    into tiles. *)
Definition tile_text (rows : list (list (list ascii))) (x y : N) : option (list ascii) :=
  row ← rows !! N.to_nat y; row !! N.to_nat x.

(** ** Sample inputs *)

Definition lvl10 : Level unit unit := new tt 10 10 0.

(** C7, counterexample: the observer [(1, 0)] lies outside the [1 x 1]
    level.  With radius [1] the rays at [theta = 0, 0.2 pi, ..., 0.8 pi]
    stop at their first sample, which is out of bounds; the first sample
    of the ray at [theta = pi] is tile [(0, 0)], and the step from [(1, 0)]
    to it reads [wall (1, 0) Left], whose [debug_assert!] panics: no matrix
    is returned.  The samples are those of the [f32] loop up to that ray;
    the later rays are never reached. *)
Definition c7_rays : list (list sample) :=
  [[mk_sample 2 0 1 0];
   [mk_sample 2 1 1 1];
   [mk_sample 1 1 0 1];
   [mk_sample 1 1 0 1; mk_sample 0 2 (-1) 2];
   [mk_sample 0 1 (-1) 1];
   [mk_sample 0 0 (-1) 0]].

(** * Theorems *)

(** ** Evaluations on sample inputs *)

Example moves_ex1 : is_move_possible lvl10 (0, 0) (1, 0) = Some true.
Proof. vm_compute. reflexivity. Qed.
Example moves_ex2 : is_move_possible lvl10 (0, 0) (1, 1) = Some true.
Proof. vm_compute. reflexivity. Qed.
Example moves_ex3 : is_move_possible lvl10 (0, 0) (2, 0) = Some false.
Proof. vm_compute. reflexivity. Qed.
Example moves_ex4 : is_move_possible lvl10 (9, 9) (9, 10) = Some false.
Proof. vm_compute. reflexivity. Qed.
Example moves_ex5 :
  (l ← set_wall lvl10 0 0 Right (Some tt); is_move_possible l (0, 0) (1, 0)) = Some false.
Proof. vm_compute. reflexivity. Qed.
Example cliffs_ex :
  (l ← set_z lvl10 1 1 10; l ← add_cliff_walls l 1 tt;
   a ← is_move_possible l (0, 0) (1, 0); b ← is_move_possible l (1, 0) (1, 1);
   c ← is_move_possible l (1, 1) (2, 1); d ← is_move_possible l (2, 1) (1, 1);
   Some [a; b; c; d]) = Some [true; false; false; false].
Proof. vm_compute. reflexivity. Qed.
Example border_ex :
  (l ← add_border_walls (new tt 20 20 0 : Level unit unit) tt;
   a ← wall l 4 0 Bottom; b ← wall l 6 19 Top; c ← wall l 0 12 Left;
   d ← wall l 19 7 Right; e ← wall l 2 2 Right; Some [a; b; c; d; e])
  = Some [Some tt; Some tt; Some tt; Some tt; None].
Proof. vm_compute. reflexivity. Qed.
Example visibility_ex :
  (f ← visibility [] (new tt 20 20 0 : Level unit unit) (5, 5) 3;
   a ← f 5 5; b ← f 1000 1000; Some (a, b)) = Some (true, false).
Proof. vm_compute. reflexivity. Qed.
Example visible_from_ex :
  visible_from [[mk_sample 6 5 1 0; mk_sample 7 5 2 0]; [mk_sample 5 6 0 1]]
    lvl10 (5, 5) 2
  = Some [[false; false; false; false; false];
          [false; false; false; false; false];
          [false; false; true; true; false];
          [false; false; true; false; false];
          [false; false; true; false; false]].
Proof. vm_compute. reflexivity. Qed.


Section Invariant.
Context {FT WT : Type}.
Implicit Types (l : Level FT WT).

Lemma new_wf (d : FT) (W D : N) (z0 : Z) :
  (D + 1) * W < 2 ^ 63 -> (W + 1) * D < 2 ^ 63 -> wf (new d W D z0 : Level FT WT).
Proof.
  intros Hh Hv. constructor; simpl; rewrite ?repeat_length; auto.
Qed.

Lemma vec_set_length {A} (v v' : list A) i a :
  vec_set v i a = Some v' -> length v' = length v.
Proof.
  unfold vec_set. destruct (Nat.ltb_spec (N.to_nat i) (length v)); intros Hs; inversion Hs.
  apply length_insert.
Qed.

Lemma vec_set_in_range {A} (v : list A) i a :
  (N.to_nat i < length v)%nat -> vec_set v i a = Some (<[N.to_nat i := a]> v).
Proof.
  intros H. unfold vec_set. destruct (Nat.ltb_spec (N.to_nat i) (length v)); [done | lia].
Qed.

Lemma vec_get_in_range {A} (v : list A) i :
  (N.to_nat i < length v)%nat -> exists a, vec_get v i = Some a.
Proof. intros Hlt. unfold vec_get. apply lookup_lt_is_Some_2 in Hlt as [a Ha]. eauto. Qed.

Lemma in_bounds_true l x y : x < width l -> y < depth l -> in_bounds l x y = true.
Proof. intros Hx Hy. unfold in_bounds. apply andb_true_intro; split; apply N.ltb_lt; done. Qed.

(** The four index expressions of [wall] and [set_wall] stay below the
    lengths [new] gives [walls_h] and [walls_v]. *)
Lemma wall_index_bounds (W D x y : N) :
  x < W -> y < D ->
  x * (D + 1) + y < (D + 1) * W /\ x * (D + 1) + y + 1 < (D + 1) * W /\
  y * (W + 1) + x < (W + 1) * D /\ y * (W + 1) + x + 1 < (W + 1) * D.
Proof. intros Hx Hy. repeat split; nia. Qed.

End Invariant.

(** ** Wall slots *)
Section SlotLemmas.
Context {FT WT : Type}.
Implicit Types (l : Level FT WT).

Lemma wall_slot l x y w :
  wall l x y w =
  if in_bounds l x y then vec_get (walls_of l (slot l x y w).1) (slot l x y w).2 else None.
Proof. unfold wall. destruct (in_bounds l x y), w; reflexivity. Qed.

Lemma slot_bound l x y w :
  wf l -> x < width l -> y < depth l ->
  (N.to_nat (slot l x y w).2 < length (walls_of l (slot l x y w).1))%nat.
Proof.
  intros Hwf Hx Hy. destruct (wall_index_bounds (width l) (depth l) x y Hx Hy) as (?&?&?&?).
  destruct Hwf as [_ _ Hh Hv _ _].
  destruct w; simpl; [rewrite Hv | rewrite Hv | rewrite Hh | rewrite Hh]; lia.
Qed.

Lemma wall_some l x y w :
  wf l -> x < width l -> y < depth l -> exists v, wall l x y w = Some v.
Proof.
  intros Hwf Hx Hy. rewrite wall_slot, in_bounds_true by done.
  apply vec_get_in_range, slot_bound; done.
Qed.

(** [set_wall] on an in-bounds tile of a well-formed level succeeds and
    updates exactly the slot it addresses. *)
Lemma set_wall_spec l x y w d :
  wf l -> x < width l -> y < depth l ->
  exists l', set_wall l x y w d = Some l' /\
    width l' = width l /\ depth l' = depth l /\ floor l' = floor l /\
    floor_data l' = floor_data l /\
    (forall b, walls_of l' b =
       if bool_decide (b = (slot l x y w).1)
       then <[N.to_nat (slot l x y w).2 := d]> (walls_of l b) else walls_of l b).
Proof.
  intros Hwf Hx Hy. pose proof (slot_bound l x y w Hwf Hx Hy) as Hb.
  unfold set_wall. rewrite in_bounds_true by done.
  destruct w; simpl in Hb |- *; rewrite vec_set_in_range by done; simpl;
    eexists; (split; [reflexivity|]); simpl; repeat split;
    intros []; reflexivity.
Qed.

Lemma set_wall_wf l x y w d l' :
  wf l -> set_wall l x y w d = Some l' -> wf l'.
Proof.
  intros [Hf Hfd Hh Hv Hhm Hvm]. unfold set_wall.
  destruct (in_bounds l x y); [|discriminate].
  destruct w; destruct (vec_set _ _ _) as [a|] eqn:E; simpl; intros Hs; inversion Hs; subst;
    apply vec_set_length in E; constructor; simpl; congruence.
Qed.

(** Reading any in-bounds wall after [set_wall]. *)
Lemma wall_after_set_wall l x y w d x' y' w' :
  wf l -> x < width l -> y < depth l -> x' < width l -> y' < depth l ->
  exists l', set_wall l x y w d = Some l' /\ wf l' /\
    width l' = width l /\ depth l' = depth l /\
    wall l' x' y' w' =
      if bool_decide (slot l x' y' w' = slot l x y w) then Some d else wall l x' y' w'.
Proof.
  intros Hwf Hx Hy Hx' Hy'.
  destruct (set_wall_spec l x y w d Hwf Hx Hy) as (l' & Hs & HW & HD & _ & _ & Hwalls).
  exists l'. split; [done|]. split; [eapply set_wall_wf; eauto|]. split; [done|]. split; [done|].
  assert (Hsl : slot l' x' y' w' = slot l x' y' w') by (destruct w'; simpl; rewrite ?HW, ?HD; reflexivity).
  rewrite !wall_slot, !in_bounds_true by (rewrite ?HW, ?HD; done).
  rewrite Hsl, Hwalls. unfold vec_get.
  pose proof (slot_bound l x' y' w' Hwf Hx' Hy') as Hb'.
  destruct (slot l x' y' w') as [b' i'] eqn:E', (slot l x y w) as [b i] eqn:E; simpl in *.
  destruct (bool_decide_reflect ((b', i') = (b, i))) as [Heq|Hne].
  - injection Heq as -> ->. rewrite bool_decide_true by done.
    apply list_lookup_insert_eq. done.
  - destruct (bool_decide_reflect (b' = b)) as [->|]; [|done].
    apply list_lookup_insert_ne. intros Hii. apply Hne. f_equal. lia.
Qed.

(** Shared edges: the two tiles next to an edge address one slot. *)
Lemma slot_right_left l x y : slot l x y Right = slot l (x + 1) y Left.
Proof. simpl. f_equal. lia. Qed.
Lemma slot_top_bottom l x y : slot l x y Top = slot l x (y + 1) Bottom.
Proof. simpl. f_equal. lia. Qed.

End SlotLemmas.


(** ** Machine-integer facts for coordinates of a level *)

Lemma isize_in_range_intro (z : Z) :
  (- 2 ^ 63 <= z < 2 ^ 63)%Z -> isize_in_range z = true.
Proof. intros H. unfold isize_in_range. apply andb_true_intro. split; [apply Z.leb_le | apply Z.ltb_lt]; lia. Qed.

Lemma isize_in_range_elim (z : Z) :
  isize_in_range z = true -> (- 2 ^ 63 <= z < 2 ^ 63)%Z.
Proof. unfold isize_in_range. intros H. apply andb_prop in H as [H1 H2]. apply Z.leb_le in H1. apply Z.ltb_lt in H2. lia. Qed.

Lemma as_isize_small (n : N) : n < 2 ^ 63 -> as_isize n = Z.of_N n.
Proof.
  intros H. unfold as_isize. rewrite Z.mod_small by lia.
  destruct (Z.ltb_spec (Z.of_N n) (2 ^ 63)); lia.
Qed.

Lemma as_isize_range (n : N) : (- 2 ^ 63 <= as_isize n < 2 ^ 63)%Z.
Proof.
  unfold as_isize. pose proof (Z.mod_pos_bound (Z.of_N n) (2 ^ 64)) as H.
  destruct (Z.ltb_spec (Z.of_N n mod 2 ^ 64) (2 ^ 63)); lia.
Qed.

Lemma as_isize_as_usize (v : Z) :
  (- 2 ^ 63 <= v < 2 ^ 63)%Z -> as_isize (isize_as_usize v) = v.
Proof.
  intros H. unfold as_isize, isize_as_usize.
  pose proof (Z.mod_pos_bound v (2 ^ 64)) as Hb.
  rewrite Z2N.id by lia. rewrite Z.mod_mod by lia.
  destruct (Z.leb_spec 0 v).
  - rewrite Z.mod_small by lia. destruct (Z.ltb_spec v (2 ^ 63)); lia.
  - rewrite <- (Z.mod_unique v (2 ^ 64) (-1) (v + 2 ^ 64)) by lia.
    destruct (Z.ltb_spec (v + 2 ^ 64) (2 ^ 63)); lia.
Qed.

Lemma isize_as_usize_of_N (n : N) : n < 2 ^ 63 -> isize_as_usize (Z.of_N n) = n.
Proof. intros H. unfold isize_as_usize. rewrite Z.mod_small by lia. apply N2Z.id. Qed.

Lemma isize_sub_ok (a b : Z) :
  (- 2 ^ 63 <= a - b < 2 ^ 63)%Z -> isize_sub a b = Some (a - b)%Z.
Proof. intros H. unfold isize_sub. rewrite isize_in_range_intro by done. done. Qed.

Lemma isize_add_ok (a b : Z) :
  (- 2 ^ 63 <= a + b < 2 ^ 63)%Z -> isize_add a b = Some (a + b)%Z.
Proof. intros H. unfold isize_add. rewrite isize_in_range_intro by done. done. Qed.

Lemma wf_dims_small {FT WT} (l : Level FT WT) : wf l -> width l < 2 ^ 63 /\ depth l < 2 ^ 63.
Proof. intros [_ _ _ _ Hh Hv]. split; nia. Qed.

Lemma isize_sub_inv (a b c : Z) :
  isize_sub a b = Some c -> c = (a - b)%Z /\ (- 2 ^ 63 <= a - b < 2 ^ 63)%Z.
Proof.
  unfold isize_sub. destruct (isize_in_range (a - b)) eqn:E; intros H; inversion H.
  apply isize_in_range_elim in E. lia.
Qed.

Lemma isize_add_inv (a b c : Z) :
  isize_add a b = Some c -> c = (a + b)%Z /\ (- 2 ^ 63 <= a + b < 2 ^ 63)%Z.
Proof.
  unfold isize_add. destruct (isize_in_range (a + b)) eqn:E; intros H; inversion H.
  apply isize_in_range_elim in E. lia.
Qed.

Lemma isize_abs_inv (a b : Z) : isize_abs a = Some b -> b = Z.abs a.
Proof. unfold isize_abs. destruct (a =? - 2 ^ 63)%Z; intros H; inversion H; done. Qed.

Lemma isize_abs_ok (a : Z) : (- 2 ^ 63 < a)%Z -> isize_abs a = Some (Z.abs a).
Proof. intros H. unfold isize_abs. destruct (Z.eqb_spec a (- 2 ^ 63)); [lia | done]. Qed.

Section Moves.
Context {FT WT : Type}.
Implicit Types (l : Level FT WT).

Lemma wall_open_spec l x y w :
  wf l -> x < width l -> y < depth l ->
  exists v, wall l x y w = Some v /\ wall_open l x y w = is_none v.
Proof.
  intros Hwf Hx Hy. destruct (wall_some l x y w Hwf Hx Hy) as [v Hv].
  exists v. unfold wall_open. rewrite Hv. destruct v; done.
Qed.

(** A single orthogonal step between in-bounds tiles reads the wall in
    the direction of the step at the start tile, whatever the nesting
    allowance. *)
Lemma imp_orth (k : nat) l sx sy ex ey (dx dy : Z) :
  wf l -> sx < width l -> sy < depth l -> ex < width l -> ey < depth l ->
  Z.of_N ex = (Z.of_N sx + dx)%Z -> Z.of_N ey = (Z.of_N sy + dy)%Z ->
  (Z.abs dx + Z.abs dy = 1)%Z ->
  is_move_possible_n k l (sx, sy) (ex, ey) = Some (wall_open l sx sy (step_dir dx dy)).
Proof.
  intros Hwf Hsx Hsy Hex Hey Hdx Hdy Hd.
  destruct (wf_dims_small l Hwf) as [HW HD].
  assert (Hne : (sx, sy) <> (ex, ey)) by (intros Heq; injection Heq as <- <-; lia).
  destruct k; cbn [is_move_possible_n fst snd];
  rewrite decide_False by done;
  (replace (width l <=? ex) with false by (symmetry; apply N.leb_gt; done));
  (replace (depth l <=? ey) with false by (symmetry; apply N.leb_gt; done));
  cbn [orb];
  rewrite (as_isize_small ex), (as_isize_small sx), (as_isize_small ey), (as_isize_small sy) by lia;
  rewrite !isize_sub_ok by lia;
  (replace (Z.of_N ex - Z.of_N sx)%Z with dx by lia);
  (replace (Z.of_N ey - Z.of_N sy)%Z with dy by lia);
  (assert (Hc : ((dx = 1 /\ dy = 0) \/ (dx = -1 /\ dy = 0) \/ (dx = 0 /\ dy = 1) \/ (dx = 0 /\ dy = -1))%Z) by lia);
  destruct Hc as [[-> ->]|[[-> ->]|[[-> ->]|[-> ->]]]]; unfold isize_abs; simpl;
  match goal with |- wall l sx sy ?w ≫= _ = _ =>
    destruct (wall_some l sx sy w Hwf Hsx Hsy) as [v Hv];
    unfold wall_open, step_dir; simpl; rewrite Hv; destruct v; reflexivity end.
Qed.

(** Only the diagonal branch depends on the nesting allowance: when the
    code's [(dx, dy)] is not diagonal, [is_move_possible_n] does not
    depend on it. *)
Lemma imp_nodiag (k k' : nat) l (s e : N * N) :
  (forall dx dy adx ady,
     isize_sub (as_isize e.1) (as_isize s.1) = Some dx ->
     isize_sub (as_isize e.2) (as_isize s.2) = Some dy ->
     isize_abs dx = Some adx -> isize_abs dy = Some ady ->
     (adx + ady =? 2)%Z = false) ->
  is_move_possible_n k l s e = is_move_possible_n k' l s e.
Proof.
  intros H. destruct k, k'; simpl; try reflexivity;
  (case_decide; [reflexivity|]);
  (destruct (_ || _); [reflexivity|]);
  (destruct (isize_sub (as_isize e.1) _) as [dx|] eqn:Ex; [|reflexivity]); simpl;
  (destruct (isize_sub (as_isize e.2) _) as [dy|] eqn:Ey; [|reflexivity]); simpl;
  (destruct (isize_abs dx) as [adx|] eqn:Ea; [|reflexivity]); simpl;
  (destruct (isize_abs dy) as [ady|] eqn:Eb; [|reflexivity]); simpl;
  (destruct (_ || _); [reflexivity|]);
  rewrite (H dx dy adx ady) by done; reflexivity.
Qed.

Ltac not_diag :=
  let dx := fresh "dx" in let dy := fresh "dy" in
  let a := fresh "a" in let b := fresh "b" in
  let H1 := fresh "H" in let H2 := fresh "H" in
  let H3 := fresh "H" in let H4 := fresh "H" in
  intros dx dy a b H1 H2 H3 H4; cbn [fst snd] in H1, H2;
  (rewrite ?as_isize_as_usize in H1 by lia); (rewrite ?as_isize_as_usize in H2 by lia);
  apply isize_sub_inv in H1 as [-> ?]; apply isize_sub_inv in H2 as [-> ?];
  apply isize_abs_inv in H3 as ->; apply isize_abs_inv in H4 as ->;
  apply Z.eqb_neq; lia.

(** One level of nesting is all the source uses: the calls made by the
    diagonal branch are never diagonal themselves. *)
Lemma is_move_possible_n_S (k k' : nat) l (s e : N * N) :
  is_move_possible_n (S k) l s e = is_move_possible_n (S k') l s e.
Proof.
  simpl.
  case_decide; [reflexivity|].
  destruct (_ || _); [reflexivity|].
  destruct (isize_sub (as_isize e.1) _) as [dx|] eqn:Ex; [|reflexivity]; simpl.
  destruct (isize_sub (as_isize e.2) _) as [dy|] eqn:Ey; [|reflexivity]; simpl.
  destruct (isize_abs dx) as [adx|] eqn:Ea; [|reflexivity]; simpl.
  destruct (isize_abs dy) as [ady|] eqn:Eb; [|reflexivity]; simpl.
  destruct (_ || _) eqn:Efar; [reflexivity|].
  destruct (adx + ady =? 2)%Z eqn:Ediag; [|reflexivity].
  apply orb_false_elim in Efar as [Efx Efy]. rewrite Z.gtb_ltb in Efx, Efy.
  apply Z.ltb_ge in Efx, Efy. apply Z.eqb_eq in Ediag.
  apply isize_sub_inv in Ex as [Ex Rx]. apply isize_sub_inv in Ey as [Ey Ry].
  apply isize_abs_inv in Ea. apply isize_abs_inv in Eb.
  pose proof (as_isize_range s.1). pose proof (as_isize_range s.2).
  pose proof (as_isize_range e.1). pose proof (as_isize_range e.2).
  destruct (isize_add (as_isize s.1) dx) as [ix|] eqn:Eix; simpl; [|reflexivity].
  apply isize_add_inv in Eix as [Eix Rix].
  rewrite (imp_nodiag k k' l s (isize_as_usize ix, s.2)) by not_diag.
  rewrite (imp_nodiag k k' l (isize_as_usize ix, s.2) e) by not_diag.
  assert (Hy : forall iy : Z, isize_add (as_isize s.2) dy = Some iy ->
    is_move_possible_n k l s (s.1, isize_as_usize iy) =
      is_move_possible_n k' l s (s.1, isize_as_usize iy) /\
    is_move_possible_n k l (s.1, isize_as_usize iy) e =
      is_move_possible_n k' l (s.1, isize_as_usize iy) e).
  { intros iy Eiy. apply isize_add_inv in Eiy as [Eiy Riy].
    split; apply imp_nodiag; not_diag. }
  destruct (isize_add (as_isize s.2) dy) as [iy|] eqn:Eiy;
    simpl; [destruct (Hy iy eq_refl) as [-> ->]|]; reflexivity.
Qed.

Lemma is_move_possible_fuel (k : nat) l (s e : N * N) :
  is_move_possible_n (S k) l s e = is_move_possible l s e.
Proof. apply is_move_possible_n_S. Qed.

(** A diagonal step between in-bounds tiles: either L-shaped path, each
    of its two steps judged by the wall it crosses. *)
Lemma imp_diag (k : nat) l sx sy ex ey (dx dy : Z) :
  wf l -> sx < width l -> sy < depth l -> ex < width l -> ey < depth l ->
  Z.of_N ex = (Z.of_N sx + dx)%Z -> Z.of_N ey = (Z.of_N sy + dy)%Z ->
  Z.abs dx = 1%Z -> Z.abs dy = 1%Z ->
  is_move_possible_n (S k) l (sx, sy) (ex, ey) =
  Some ((wall_open l sx sy (step_dir dx 0) && wall_open l ex sy (step_dir 0 dy)) ||
        (wall_open l sx sy (step_dir 0 dy) && wall_open l sx ey (step_dir dx 0))).
Proof.
  intros Hwf Hsx Hsy Hex Hey Hdx Hdy Hax Hay.
  destruct (wf_dims_small l Hwf) as [HW HD].
  assert (Hne : (sx, sy) <> (ex, ey)) by (intros Heq; injection Heq as <- <-; lia).
  cbn [is_move_possible_n fst snd].
  rewrite decide_False by done.
  replace (width l <=? ex) with false by (symmetry; apply N.leb_gt; done).
  replace (depth l <=? ey) with false by (symmetry; apply N.leb_gt; done).
  cbn [orb].
  rewrite (as_isize_small ex), (as_isize_small sx), (as_isize_small ey), (as_isize_small sy) by lia.
  rewrite !isize_sub_ok by lia. simpl.
  replace (Z.of_N ex - Z.of_N sx)%Z with dx by lia.
  replace (Z.of_N ey - Z.of_N sy)%Z with dy by lia.
  rewrite !isize_abs_ok by lia. simpl. rewrite Hax, Hay. simpl.
  rewrite (isize_add_ok (Z.of_N sx) dx), (isize_add_ok (Z.of_N sy) dy) by lia. simpl.
  replace (Z.of_N sx + dx)%Z with (Z.of_N ex) by lia.
  replace (Z.of_N sy + dy)%Z with (Z.of_N ey) by lia.
  rewrite !isize_as_usize_of_N by lia.
  rewrite (imp_orth k l sx sy ex sy dx 0), (imp_orth k l ex sy ex ey 0 dy) by (auto; lia).
  rewrite (imp_orth k l sx sy sx ey 0 dy), (imp_orth k l sx ey ex ey dx 0) by (auto; lia).
  simpl.
  destruct (wall_open l sx sy (step_dir dx 0)), (wall_open l ex sy (step_dir 0 dy)),
    (wall_open l sx sy (step_dir 0 dy)), (wall_open l sx ey (step_dir dx 0)); reflexivity.
Qed.

(** The two tiles on either side of an edge see the same wall. *)
Lemma wall_open_alias l sx sy ex ey (dx dy rdx rdy : Z) :
  sx < width l -> sy < depth l -> ex < width l -> ey < depth l ->
  Z.of_N ex = (Z.of_N sx + dx)%Z -> Z.of_N ey = (Z.of_N sy + dy)%Z ->
  (Z.abs dx + Z.abs dy = 1)%Z -> rdx = (- dx)%Z -> rdy = (- dy)%Z ->
  wall_open l sx sy (step_dir dx dy) = wall_open l ex ey (step_dir rdx rdy).
Proof.
  intros Hsx Hsy Hex Hey Hdx Hdy Hd -> ->.
  assert (Hc : ((dx = 1 /\ dy = 0) \/ (dx = -1 /\ dy = 0) \/ (dx = 0 /\ dy = 1) \/ (dx = 0 /\ dy = -1))%Z) by lia.
  unfold wall_open. rewrite !wall_slot, !in_bounds_true by done.
  destruct Hc as [[-> ->]|[[-> ->]|[[-> ->]|[-> ->]]]];
    repeat match goal with |- context [step_dir ?a ?b] =>
      let v := eval vm_compute in (step_dir a b) in change (step_dir a b) with v end.
  - assert (ex = sx + 1) as -> by lia. assert (ey = sy) as -> by lia.
    rewrite slot_right_left. reflexivity.
  - assert (sx = ex + 1) as -> by lia. assert (ey = sy) as -> by lia.
    rewrite slot_right_left. reflexivity.
  - assert (ey = sy + 1) as -> by lia. assert (ex = sx) as -> by lia.
    rewrite slot_top_bottom. reflexivity.
  - assert (sy = ey + 1) as -> by lia. assert (ex = sx) as -> by lia.
    rewrite slot_top_bottom. reflexivity.
Qed.

(** Tiles more than one step apart: no move, once the start coordinates
    survive the [as isize] casts. *)
Lemma imp_far (k : nat) l (s e : N * N) :
  wf l -> s.1 < 2 ^ 63 -> s.2 < 2 ^ 63 -> s <> e ->
  (1 < Z.abs (Z.of_N e.1 - Z.of_N s.1) \/ 1 < Z.abs (Z.of_N e.2 - Z.of_N s.2))%Z ->
  is_move_possible_n k l s e = Some false.
Proof.
  intros Hwf Hs1 Hs2 Hne Hfar.
  destruct (wf_dims_small l Hwf) as [HW HD].
  assert (Hb : ((Z.abs (Z.of_N e.1 - Z.of_N s.1) >? 1) || (Z.abs (Z.of_N e.2 - Z.of_N s.2) >? 1))%Z = true)
    by (apply orb_true_iff; rewrite !Z.gtb_ltb, !Z.ltb_lt; lia).
  destruct k; cbn [is_move_possible_n]; rewrite decide_False by done;
  (destruct ((width l <=? e.1) || (depth l <=? e.2)) eqn:Eb; [reflexivity|]);
  apply orb_false_elim in Eb as [E1 E2]; apply N.leb_gt in E1, E2;
  rewrite (as_isize_small e.1), (as_isize_small s.1), (as_isize_small e.2), (as_isize_small s.2) by lia;
  rewrite !isize_sub_ok by lia; simpl; rewrite !isize_abs_ok by lia; simpl; rewrite Hb; reflexivity.
Qed.

Lemma imp_self (k : nat) l (p : N * N) : is_move_possible_n k l p p = Some true.
Proof. destruct k; cbn [is_move_possible_n]; rewrite decide_True; done. Qed.

Lemma imp_out (k : nat) l (s e : N * N) :
  s <> e -> (width l <= e.1 \/ depth l <= e.2) -> is_move_possible_n k l s e = Some false.
Proof.
  intros Hne Hout.
  assert (Hb : ((width l <=? e.1) || (depth l <=? e.2)) = true)
    by (apply orb_true_iff; rewrite !N.leb_le; done).
  destruct k; cbn [is_move_possible_n]; rewrite decide_False by done; rewrite Hb; done.
Qed.

(** Moves between in-bounds tiles are symmetric. *)
Lemma imp_sym l (a b : N * N) :
  wf l -> a.1 < width l -> a.2 < depth l -> b.1 < width l -> b.2 < depth l ->
  is_move_possible l a b = is_move_possible l b a.
Proof.
  destruct a as [ax ay], b as [bx by']. simpl. intros Hwf Hax Hay Hbx Hby.
  destruct (wf_dims_small l Hwf) as [HW HD].
  unfold is_move_possible.
  destruct (decide ((ax, ay) = (bx, by'))) as [Heq|Hne].
  { rewrite Heq. reflexivity. }
  assert (Hne' : (bx, by') <> (ax, ay)) by congruence.
  assert (Hnz : (Z.of_N bx - Z.of_N ax <> 0 \/ Z.of_N by' - Z.of_N ay <> 0)%Z).
  { destruct (Z.eq_dec (Z.of_N bx - Z.of_N ax)%Z 0%Z); [|by left].
    destruct (Z.eq_dec (Z.of_N by' - Z.of_N ay)%Z 0%Z); [|by right].
    exfalso. apply Hne. f_equal; lia. }
  set (dx := (Z.of_N bx - Z.of_N ax)%Z) in *. set (dy := (Z.of_N by' - Z.of_N ay)%Z) in *.
  assert (Hc : ((1 < Z.abs dx \/ 1 < Z.abs dy) \/ (Z.abs dx + Z.abs dy = 1)
               \/ (Z.abs dx = 1 /\ Z.abs dy = 1))%Z) by lia.
  destruct Hc as [Hfar|[Horth|[Hdx Hdy]]].
  - rewrite !imp_far by (simpl; auto; lia). reflexivity.
  - rewrite (imp_orth 1 l ax ay bx by' dx dy), (imp_orth 1 l bx by' ax ay (- dx) (- dy)) by (auto; lia).
    f_equal. apply (wall_open_alias l ax ay bx by' dx dy); auto; lia.
  - rewrite (imp_diag 0 l ax ay bx by' dx dy), (imp_diag 0 l bx by' ax ay (- dx) (- dy)) by (auto; lia).
    f_equal.
    rewrite (wall_open_alias l bx by' ax by' (- dx) 0 dx 0) by (auto; lia).
    rewrite (wall_open_alias l ax by' ax ay 0 (- dy) 0 dy) by (auto; lia).
    rewrite (wall_open_alias l bx by' bx ay 0 (- dy) 0 dy) by (auto; lia).
    rewrite (wall_open_alias l bx ay ax ay (- dx) 0 dx 0) by (auto; lia).
    destruct (wall_open l ax ay (step_dir dx 0)), (wall_open l bx ay (step_dir 0 dy)),
      (wall_open l ax ay (step_dir 0 dy)), (wall_open l ax by' (step_dir dx 0)); reflexivity.
Qed.

End Moves.

(** ** Loops *)

Lemma for_upto_inv {St} (P : N -> St -> Prop) (body : N -> St -> option St)
    (fuel : nat) (i : N) (s : St) :
  P i s ->
  (forall k s, i <= k -> k < i + N.of_nat fuel -> P k s ->
     exists s', body k s = Some s' /\ P (k + 1) s') ->
  exists s', for_upto fuel i body s = Some s' /\ P (i + N.of_nat fuel) s'.
Proof.
  revert i s. induction fuel as [|f IH]; intros i s Hi Hstep; simpl.
  - exists s. split; [done|]. rewrite N.add_0_r. done.
  - destruct (Hstep i s) as (s1 & Hb & H1); [lia|lia|done|].
    rewrite Hb. simpl. destruct (IH (i + 1) s1 H1) as (s' & Hf & Hs').
    { intros k s0 Hk1 Hk2 Hk. apply Hstep; [lia|lia|done]. }
    exists s'. split; [done|].
    replace (i + N.of_nat (S f)) with (i + 1 + N.of_nat f) by lia. done.
Qed.

Lemma for_range_inv {St} (P : N -> St -> Prop) (body : N -> St -> option St) (n : N) (s : St) :
  P 0 s ->
  (forall k s, k < n -> P k s -> exists s', body k s = Some s' /\ P (k + 1) s') ->
  exists s', for_range 0 n body s = Some s' /\ P n s'.
Proof.
  intros H0 Hstep. unfold for_range.
  destruct (for_upto_inv P body (N.to_nat (n - 0)) 0 s H0) as (s' & Hf & Hs').
  { intros k s0 _ Hk Hp. apply Hstep; [lia|done]. }
  replace (0 + N.of_nat (N.to_nat (n - 0))) with n in Hs' by lia.
  exists s'. split; done.
Qed.

Lemma mul_add_inj (m a b c e : N) : a * m + b = c * m + e -> b < m -> e < m -> a = c /\ b = e.
Proof.
  intros H Hb He.
  destruct (N.lt_trichotomy a c) as [Hlt|[Heq|Hgt]].
  - exfalso. assert ((a + 1) * m <= c * m) by (apply N.mul_le_mono_r; lia). lia.
  - subst. lia.
  - exfalso. assert ((c + 1) * m <= a * m) by (apply N.mul_le_mono_r; lia). lia.
Qed.

Section Border.
Context {FT WT : Type}.
Implicit Types (l : Level FT WT).

Lemma slot_dims l l' x y w :
  width l' = width l -> depth l' = depth l -> slot l' x y w = slot l x y w.
Proof. intros HW HD. destruct w; simpl; rewrite ?HW, ?HD; reflexivity. Qed.

Lemma wall_set_wall_eq l l' x y w d x' y' w' :
  wf l -> set_wall l x y w d = Some l' -> x < width l -> y < depth l ->
  x' < width l -> y' < depth l ->
  wf l' /\ width l' = width l /\ depth l' = depth l /\
  wall l' x' y' w' =
    if bool_decide (slot l x' y' w' = slot l x y w) then Some d else wall l x' y' w'.
Proof.
  intros Hwf Hs Hx Hy Hx' Hy'.
  destruct (wall_after_set_wall l x y w d x' y' w' Hwf Hx Hy Hx' Hy') as (l'' & Hs' & H).
  rewrite Hs in Hs'. injection Hs' as <-. done.
Qed.


(** One [set_wall] of the payload extends the written slots by one. *)
Lemma border_state_set l0 p (written : bool * N -> Prop) l x y w l' :
  border_state l0 p written l -> x < width l0 -> y < depth l0 ->
  set_wall l x y w (Some p) = Some l' ->
  border_state l0 p (fun sl => written sl \/ sl = slot l0 x y w) l'.
Proof.
  intros (Hwf & HW & HD & Hst) Hx Hy Hs.
  split; [|split; [|split]].
  - destruct (wall_set_wall_eq l l' x y w (Some p) x y w Hwf Hs) as [? _]; lia || done.
  - destruct (wall_set_wall_eq l l' x y w (Some p) x y w Hwf Hs) as (_ & ? & _); [lia..|]. congruence.
  - destruct (wall_set_wall_eq l l' x y w (Some p) x y w Hwf Hs) as (_ & _ & ? & _); [lia..|]. congruence.
  - intros x' y' w' Hx' Hy'.
    destruct (wall_set_wall_eq l l' x y w (Some p) x' y' w' Hwf Hs) as (_ & _ & _ & Hr); [lia..|].
    rewrite Hr, !(slot_dims l0 l) by done. clear Hr.
    destruct (Hst x' y' w' Hx' Hy') as [Hin Hout].
    split.
    + intros [Hw|Heq].
      * case_bool_decide; [done|]. apply Hin; done.
      * rewrite bool_decide_true by done. done.
    + intros Hn. rewrite bool_decide_false by (intros Heq; apply Hn; right; done).
      apply Hout. intros Hw. apply Hn. left. done.
Qed.

Lemma border_state_ext l0 p (w1 w2 : bool * N -> Prop) l :
  (forall sl, w1 sl <-> w2 sl) -> border_state l0 p w1 l -> border_state l0 p w2 l.
Proof.
  intros Hiff (Hwf & HW & HD & Hst). split; [done|]. split; [done|]. split; [done|].
  intros x y w Hx Hy. destruct (Hst x y w Hx Hy) as [Hin Hout].
  split; intros H; [apply Hin, Hiff, H | apply Hout; rewrite Hiff; exact H].
Qed.

(** [add_border_walls] writes exactly the border slots. *)
Lemma add_border_walls_state l (p : WT) :
  wf l -> 1 <= width l -> 1 <= depth l ->
  exists l', add_border_walls l p = Some l' /\
    border_state l p (fun sl => h_border (depth l) (width l) sl \/ v_border (width l) (depth l) sl) l'.
Proof.
  intros Hwf HW1 HD1. unfold add_border_walls.
  destruct (for_range_inv (fun k l' => border_state l p (h_border (depth l) k) l')
     (fun x l0 => l1 ← set_wall l0 x 0 Bottom (Some p); dm ← usize_sub (depth l) 1;
                  set_wall l1 x dm Top (Some p)) (width l) l) as (l1 & Hl1 & Hst1).
  { split; [done|]. split; [done|]. split; [done|]. intros x y w _ _. split.
    - intros [_ (x' & Hx' & _)]. lia.
    - done. }
  { intros k l0 Hk Hst0.
    pose proof Hst0 as (Hwf0 & HW0 & HD0 & _).
    destruct (set_wall_spec l0 k 0 Bottom (Some p) Hwf0) as (la & Ha & _); [lia..|].
    pose proof (border_state_set _ _ _ _ k 0 Bottom la Hst0) as Hsa.
    assert (Hdm : usize_sub (depth l) 1 = Some (depth l - 1))
      by (unfold usize_sub; destruct (N.leb_spec 1 (depth l)); [done|lia]).
    pose proof (Hsa ltac:(lia) ltac:(lia) Ha) as Hsa'.
    pose proof Hsa' as (Hwfa & HWa & HDa & _).
    destruct (set_wall_spec la k (depth l - 1) Top (Some p) Hwfa) as (lb & Hb & _); [lia..|].
    pose proof (border_state_set _ _ _ _ k (depth l - 1) Top lb Hsa') as Hsb.
    exists lb. rewrite Ha. simpl. rewrite Hdm. simpl. split; [done|].
    eapply border_state_ext; [|apply Hsb; [lia|lia|done]].
    intros [b i]; unfold h_border; simpl. split.
    - intros [[[-> (x & Hx & Hi)]|Heq]|Heq].
      + split; [done|]. exists x. split; [lia|done].
      + injection Heq as -> ->. split; [done|]. exists k. split; [lia|]. left. lia.
      + injection Heq as -> ->. split; [done|]. exists k. split; [lia|]. right. lia.
    - intros [-> (x & Hx & Hi)].
      destruct (N.lt_ge_cases x k).
      + left. left. split; [done|]. exists x. split; [done|done].
      + assert (x = k) as -> by lia.
        destruct Hi as [->| ->].
        * left. right. f_equal. lia.
        * right. f_equal. lia. }
  rewrite Hl1. simpl.
  destruct (for_range_inv (fun k l' => border_state l p
        (fun sl => h_border (depth l) (width l) sl \/ v_border (width l) k sl) l')
     (fun y l0 => l1 ← set_wall l0 0 y Left (Some p); wm ← usize_sub (width l) 1;
                  set_wall l1 wm y Right (Some p)) (depth l) l1) as (l2 & Hl2 & Hst2).
  { eapply border_state_ext; [|exact Hst1]. intros sl. split; [intros H; left; done|].
    intros [H|[_ (y & Hy & _)]]; [done|lia]. }
  { intros k l0 Hk Hst0.
    pose proof Hst0 as (Hwf0 & HW0 & HD0 & _).
    destruct (set_wall_spec l0 0 k Left (Some p) Hwf0) as (la & Ha & _); [lia..|].
    pose proof (border_state_set _ _ _ _ 0 k Left la Hst0) as Hsa.
    assert (Hwm : usize_sub (width l) 1 = Some (width l - 1))
      by (unfold usize_sub; destruct (N.leb_spec 1 (width l)); [done|lia]).
    pose proof (Hsa ltac:(lia) ltac:(lia) Ha) as Hsa'.
    pose proof Hsa' as (Hwfa & HWa & HDa & _).
    destruct (set_wall_spec la (width l - 1) k Right (Some p) Hwfa) as (lb & Hb & _); [lia..|].
    pose proof (border_state_set _ _ _ _ (width l - 1) k Right lb Hsa') as Hsb.
    exists lb. rewrite Ha. simpl. rewrite Hwm. simpl. split; [done|].
    eapply border_state_ext; [|apply Hsb; [lia|lia|done]].
    intros [b i]; unfold v_border; simpl. split.
    - intros [[[Hh|[-> (y & Hy & Hi)]]|Heq]|Heq].
      + left. done.
      + right. split; [done|]. exists y. split; [lia|done].
      + injection Heq as -> ->. right. split; [done|]. exists k. split; [lia|]. left. lia.
      + injection Heq as -> ->. right. split; [done|]. exists k. split; [lia|]. right. lia.
    - intros [Hh|[-> (y & Hy & Hi)]]; [left; left; left; done|].
      destruct (N.lt_ge_cases y k).
      + left. left. right. split; [done|]. exists y. split; [done|done].
      + assert (y = k) as -> by lia.
        destruct Hi as [->| ->].
        * left. right. f_equal. lia.
        * right. f_equal. lia. }
  exists l2. split; [done|]. done.
Qed.

End Border.

Ltac slot_inj :=
  match goal with
  | H : ?a * ?m + ?b + 1 = ?c * ?m |- _ =>
      destruct (mul_add_inj m a (b + 1) c 0 ltac:(lia) ltac:(lia) ltac:(lia)); lia
  | H : ?a * ?m + ?b + 1 = ?c * ?m + ?e |- _ =>
      destruct (mul_add_inj m a (b + 1) c e ltac:(lia) ltac:(lia) ltac:(lia)); lia
  | H : ?a * ?m + ?b = ?c * ?m |- _ =>
      destruct (mul_add_inj m a b c 0 ltac:(lia) ltac:(lia) ltac:(lia)); lia
  | H : ?a * ?m + ?b = ?c * ?m + ?e |- _ =>
      destruct (mul_add_inj m a b c e ltac:(lia) ltac:(lia) ltac:(lia)); lia
  end.

Section ClaimsBorder.
Context {FT WT : Type}.
Implicit Types (l : Level FT WT).

(** C6: on a well-formed [W x D] level ([1 <= W], [1 <= D]) whose edges are
    all wall-free, [add_border_walls payload] returns a level of the same
    dimensions in which the Bottom edges at [y = 0], the Top edges at
    [y = D - 1], the Left edges at [x = 0] and the Right edges at
    [x = W - 1] hold the payload, and every interior edge is still free. *)
Theorem add_border_walls_border_frame l (p : WT) :
  wf l -> 1 <= width l -> 1 <= depth l ->
  (forall x y w, x < width l -> y < depth l -> wall l x y w = Some None) ->
  exists l', add_border_walls l p = Some l' /\
    width l' = width l /\ depth l' = depth l /\
    (forall x, x < width l ->
       wall l' x 0 Bottom = Some (Some p) /\ wall l' x (depth l - 1) Top = Some (Some p)) /\
    (forall y, y < depth l ->
       wall l' 0 y Left = Some (Some p) /\ wall l' (width l - 1) y Right = Some (Some p)) /\
    (forall x y w, x < width l -> y < depth l -> interior_edge l x y w = true ->
       wall l' x y w = Some None).
Proof.
  intros Hwf HW HD Hfree.
  destruct (add_border_walls_state l p Hwf HW HD) as (l' & Hl' & (Hwf' & HW' & HD' & Hst)).
  exists l'. split; [done|]. split; [done|]. split; [done|]. split; [|split].
  - intros x Hx. split.
    + apply (Hst x 0 Bottom Hx ltac:(lia)). left. split; [done|].
      exists x. split; [done|]. cbn [slot fst snd]. left. lia.
    + apply (Hst x (depth l - 1) Top Hx ltac:(lia)). left. split; [done|].
      exists x. split; [done|]. cbn [slot fst snd]. right. lia.
  - intros y Hy. split.
    + apply (Hst 0 y Left ltac:(lia) Hy). right. split; [done|].
      exists y. split; [done|]. cbn [slot fst snd]. left. lia.
    + apply (Hst (width l - 1) y Right ltac:(lia) Hy). right. split; [done|].
      exists y. split; [done|]. cbn [slot fst snd]. right. lia.
  - intros x y w Hx Hy Hi. rewrite <- (Hfree x y w Hx Hy). apply (Hst x y w Hx Hy).
    unfold h_border, v_border.
    intros [[Hb (x' & Hx' & Hi')]|[Hb (y' & Hy' & Hi')]];
      destruct w; cbn [slot interior_edge fst snd] in *; try discriminate;
      apply N.ltb_lt in Hi; destruct Hi' as [Hi'|Hi']; slot_inj.
Qed.

End ClaimsBorder.

(** ** The matrix of [visible_from] *)

Section Shape.
Context {FT WT : Type}.
Implicit Types (l : Level FT WT).

Lemma imp_true_bounds (k : nat) l (s e : N * N) :
  is_move_possible_n k l s e = Some true -> s = e \/ (e.1 < width l /\ e.2 < depth l).
Proof.
  intros H. destruct (decide (s = e)) as [|Hne]; [by left|right].
  destruct (decide (width l <= e.1 \/ depth l <= e.2)) as [Hout|Hin].
  - rewrite imp_out in H by done. discriminate.
  - lia.
Qed.

(** From an in-bounds start on a well-formed level, [is_move_possible]
    does not panic. *)
Lemma imp_some l (s e : N * N) :
  wf l -> s.1 < width l -> s.2 < depth l -> exists b, is_move_possible l s e = Some b.
Proof.
  destruct s as [ax ay], e as [bx by']. simpl. intros Hwf Hax Hay.
  destruct (wf_dims_small l Hwf) as [HW HD].
  unfold is_move_possible.
  destruct (decide ((ax, ay) = (bx, by'))) as [Heq|Hne].
  { rewrite Heq, imp_self. eauto. }
  destruct (decide (width l <= bx \/ depth l <= by')) as [Hout|Hin].
  { rewrite imp_out by done. eauto. }
  assert (Hbx : bx < width l) by lia. assert (Hby : by' < depth l) by lia.
  assert (Hnz : (Z.of_N bx - Z.of_N ax <> 0 \/ Z.of_N by' - Z.of_N ay <> 0)%Z).
  { destruct (Z.eq_dec (Z.of_N bx - Z.of_N ax)%Z 0%Z); [|by left].
    destruct (Z.eq_dec (Z.of_N by' - Z.of_N ay)%Z 0%Z); [|by right].
    exfalso. apply Hne. f_equal; lia. }
  set (dx := (Z.of_N bx - Z.of_N ax)%Z) in *. set (dy := (Z.of_N by' - Z.of_N ay)%Z) in *.
  assert (Hc : ((1 < Z.abs dx \/ 1 < Z.abs dy) \/ (Z.abs dx + Z.abs dy = 1)
               \/ (Z.abs dx = 1 /\ Z.abs dy = 1))%Z) by lia.
  destruct Hc as [Hfar|[Horth|[Hdx Hdy]]].
  - rewrite imp_far by (simpl; auto; lia). eauto.
  - rewrite (imp_orth 1 l ax ay bx by' dx dy) by (auto; lia). eauto.
  - rewrite (imp_diag 0 l ax ay bx by' dx dy) by (auto; lia). eauto.
Qed.

Lemma mark_square n m i j :
  square n m -> i < n -> j < n ->
  exists m', mark m i j = Some m' /\ square n m' /\
    (forall a b, cell m a b = Some true -> cell m' a b = Some true) /\
    cell m' i j = Some true.
Proof.
  intros [Hlen Hrows] Hi Hj. unfold mark, vec_get.
  destruct (lookup_lt_is_Some_2 m (N.to_nat i)) as [row Hrow]; [lia|].
  rewrite Hrow. simpl.
  assert (Hrl : length row = N.to_nat n) by (rewrite Forall_lookup in Hrows; exact (Hrows _ _ Hrow)).
  rewrite vec_set_in_range by lia. simpl.
  rewrite vec_set_in_range by lia. simpl.
  eexists. split; [reflexivity|]. split; [|split].
  - split; [rewrite length_insert; done|].
    apply Forall_insert; [done|]. rewrite length_insert. done.
  - intros a b. unfold cell.
    destruct (decide (N.to_nat a = N.to_nat i)) as [Ea|Ea].
    + rewrite Ea, Hrow, list_lookup_insert_eq by lia. simpl.
      destruct (decide (N.to_nat b = N.to_nat j)) as [Eb|Eb].
      * rewrite Eb, list_lookup_insert_eq by lia. done.
      * rewrite list_lookup_insert_ne by done. done.
    + rewrite list_lookup_insert_ne by done. done.
  - unfold cell. rewrite list_lookup_insert_eq by lia. simpl.
    rewrite list_lookup_insert_eq by lia. done.
Qed.

Lemma f32_as_isize_id (v : Z) : (- 2 ^ 63 <= v < 2 ^ 63)%Z -> f32_as_isize v = v.
Proof.
  intros H. unfold f32_as_isize.
  destruct (Z.ltb_spec v (- 2 ^ 63)); [lia|]. destruct (Z.leb_spec (2 ^ 63) v); lia.
Qed.

Lemma isize_mul_ok (a b : Z) :
  (- 2 ^ 63 <= a * b < 2 ^ 63)%Z -> isize_mul a b = Some (a * b)%Z.
Proof. intros H. unfold isize_mul. rewrite isize_in_range_intro by done. done. Qed.

(** One ray keeps the matrix square and every cell already set. *)
Lemma march_square l pos radius samples prev res :
  wf l -> prev.1 < width l -> prev.2 < depth l -> radius < 2 ^ 32 ->
  Forall (fun s => sample_near radius s = true) samples ->
  square (2 * radius + 1) res ->
  exists res', march l pos radius samples prev res = Some res' /\
    square (2 * radius + 1) res' /\
    (forall a b, cell res a b = Some true -> cell res' a b = Some true).
Proof.
  intros Hwf. revert prev res.
  induction samples as [|s rest IH]; intros prev res Hp1 Hp2 Hr Hs Hsq.
  { simpl. eauto. }
  inversion Hs as [|? ? Hns Hrest]; subst.
  cbn [march].
  destruct ((s_abs_x s <? 0)%Z || (s_abs_y s <? 0)%Z); [apply IH; done|].
  set (ax := f32_as_usize (s_abs_x s)). set (ay := f32_as_usize (s_abs_y s)).
  destruct ((ax =? prev.1) && (ay =? prev.2)) eqn:Esame; [apply IH; done|].
  destruct (imp_some l prev (ax, ay) Hwf Hp1 Hp2) as [b Hb].
  rewrite Hb. simpl. destruct b; [|eauto].
  assert (Hin : ax < width l /\ ay < depth l).
  { destruct (imp_true_bounds 1 l prev (ax, ay) Hb) as [Heq|Hin]; [|exact Hin].
    rewrite Heq in Esame. simpl in Esame. rewrite !N.eqb_refl in Esame. discriminate. }
  apply andb_prop in Hns as [Hnx Hny]. apply Z.leb_le in Hnx, Hny.
  rewrite as_isize_small by lia.
  rewrite !f32_as_isize_id by lia.
  rewrite isize_add_ok by lia. simpl. rewrite isize_add_ok by lia. simpl.
  rewrite isize_mul_ok by lia. simpl. rewrite isize_add_ok by lia. simpl.
  destruct ((s_x s + Z.of_N radius <? 0)%Z || (2 * Z.of_N radius + 1 <=? s_x s + Z.of_N radius)%Z)
    eqn:Ei; [apply IH; done|].
  destruct ((s_y s + Z.of_N radius <? 0)%Z || (2 * Z.of_N radius + 1 <=? s_y s + Z.of_N radius)%Z)
    eqn:Ej; [apply IH; done|].
  apply orb_false_elim in Ei as [Ei1 Ei2], Ej as [Ej1 Ej2].
  apply Z.ltb_ge in Ei1, Ej1. apply Z.leb_gt in Ei2, Ej2.
  destruct (mark_square (2 * radius + 1) res (Z.to_N (s_x s + Z.of_N radius))
              (Z.to_N (s_y s + Z.of_N radius)) Hsq ltac:(lia) ltac:(lia))
    as (m1 & Hm1 & Hsq1 & Hmono1 & _).
  rewrite Hm1. simpl.
  destruct (IH (ax, ay) m1 (proj1 Hin) (proj2 Hin) Hr Hrest Hsq1) as (m2 & Hm2 & Hsq2 & Hmono2).
  exists m2. split; [done|]. split; [done|]. intros a b' Hab. apply Hmono2, Hmono1, Hab.
Qed.

Lemma march_rays_square l pos radius rays res :
  wf l -> pos.1 < width l -> pos.2 < depth l -> radius < 2 ^ 32 ->
  Forall (Forall (fun s => sample_near radius s = true)) rays ->
  square (2 * radius + 1) res ->
  exists res', march_rays l pos radius rays res = Some res' /\
    square (2 * radius + 1) res' /\
    (forall a b, cell res a b = Some true -> cell res' a b = Some true).
Proof.
  intros Hwf Hp1 Hp2 Hr. revert res.
  induction rays as [|ray rays IH]; intros res Hs Hsq.
  { simpl. eauto. }
  inversion Hs as [|? ? Hray Hrays]; subst. cbn [march_rays].
  unfold usize_mul at 1. rewrite (proj2 (N.ltb_lt _ _)) by nia. simpl.
  destruct (march_square l pos radius ray pos res Hwf Hp1 Hp2 Hr Hray Hsq) as (m1 & Hm1 & Hsq1 & Hmono1).
  rewrite Hm1. simpl.
  destruct (IH m1 Hrays Hsq1) as (m2 & Hm2 & Hsq2 & Hmono2).
  exists m2. split; [done|]. split; [done|]. intros a b Hab. apply Hmono2, Hmono1, Hab.
Qed.

(** [visible_from] on a well-formed level, from an in-bounds tile, with a
    radius whose square fits a [usize]: a square matrix of side
    [2 * radius + 1] whose centre is set. *)
Lemma visible_from_square rays l pos radius :
  wf l -> pos.1 < width l -> pos.2 < depth l -> radius < 2 ^ 32 ->
  Forall (Forall (fun s => sample_near radius s = true)) rays ->
  exists m, visible_from rays l pos radius = Some m /\
    square (2 * radius + 1) m /\ cell m radius radius = Some true.
Proof.
  intros Hwf Hp1 Hp2 Hr Hs. unfold visible_from.
  replace (alloc_ok (2 * radius + 1) 24 && alloc_ok (2 * radius + 1) 1) with true
    by (unfold alloc_ok; rewrite !(proj2 (N.ltb_lt _ _)) by lia; done).
  assert (Hsq0 : square (2 * radius + 1)
                   (repeat (repeat false (N.to_nat (2 * radius + 1))) (N.to_nat (2 * radius + 1)))).
  { split; [apply repeat_length|]. apply Forall_forall.
    intros row Hrow. apply repeat_spec in Hrow. subst. apply repeat_length. }
  destruct (mark_square _ _ radius radius Hsq0 ltac:(lia) ltac:(lia)) as (m1 & Hm1 & Hsq1 & _ & Hc1).
  rewrite Hm1. simpl.
  unfold usize_mul at 1. rewrite (proj2 (N.ltb_lt _ _)) by lia. simpl.
  destruct (march_rays_square l pos radius rays m1 Hwf Hp1 Hp2 Hr Hs Hsq1) as (m2 & Hm2 & Hsq2 & Hmono).
  exists m2. split; [done|]. split; [done|]. apply Hmono, Hc1.
Qed.

End Shape.

Lemma lookup_repeat_lt {A} (a : A) (n i : nat) : (i < n)%nat -> repeat a n !! i = Some a.
Proof.
  revert i. induction n as [|n IH]; intros i Hi; [lia|].
  destruct i; simpl; [done|]. apply IH. lia.
Qed.

Section Fresh.
Context {FT WT : Type}.

(** A fresh level has no wall. *)
Lemma new_walls_free (d : FT) (W D : N) (z0 : Z) x y w :
  x < W -> y < D -> wall (new d W D z0 : Level FT WT) x y w = Some None.
Proof.
  intros Hx Hy.
  destruct (wall_index_bounds W D x y Hx Hy) as (H1 & H2 & H3 & H4).
  unfold wall. rewrite in_bounds_true by done. simpl.
  destruct w; unfold vec_get; simpl; apply lookup_repeat_lt; [lia|lia|nia|nia].
Qed.

End Fresh.

(** * The claims *)

Section ClaimsWalls.
Context {FT WT : Type}.
Implicit Types (l : Level FT WT).

(** C2: on a well-formed level, the Right edge of [(x, y)] and the Left
    edge of [(x + 1, y)] read the same value, and so do the Top edge of
    [(x, y)] and the Bottom edge of [(x, y + 1)]; a [set_wall] through
    either address is read back through the other one. *)
Theorem wall_aliasing l x y :
  wf l -> x < width l -> y < depth l ->
  (x + 1 < width l ->
     wall l x y Right = wall l (x + 1) y Left /\
     forall d, exists l1 l2,
       set_wall l x y Right d = Some l1 /\ wall l1 (x + 1) y Left = Some d /\
       set_wall l (x + 1) y Left d = Some l2 /\ wall l2 x y Right = Some d) /\
  (y + 1 < depth l ->
     wall l x y Top = wall l x (y + 1) Bottom /\
     forall d, exists l1 l2,
       set_wall l x y Top d = Some l1 /\ wall l1 x (y + 1) Bottom = Some d /\
       set_wall l x (y + 1) Bottom d = Some l2 /\ wall l2 x y Top = Some d).
Proof.
  intros Hwf Hx Hy. split.
  - intros Hx1. split.
    + rewrite !wall_slot, !in_bounds_true by done. rewrite slot_right_left. done.
    + intros d.
      destruct (wall_after_set_wall l x y Right d (x + 1) y Left Hwf Hx Hy Hx1 Hy)
        as (l1 & Hs1 & _ & _ & _ & Hr1).
      destruct (wall_after_set_wall l (x + 1) y Left d x y Right Hwf Hx1 Hy Hx Hy)
        as (l2 & Hs2 & _ & _ & _ & Hr2).
      exists l1, l2. rewrite <- slot_right_left in Hr1, Hr2.
      rewrite bool_decide_true in Hr1 by done. rewrite bool_decide_true in Hr2 by done.
      done.
  - intros Hy1. split.
    + rewrite !wall_slot, !in_bounds_true by done. rewrite slot_top_bottom. done.
    + intros d.
      destruct (wall_after_set_wall l x y Top d x (y + 1) Bottom Hwf Hx Hy Hx Hy1)
        as (l1 & Hs1 & _ & _ & _ & Hr1).
      destruct (wall_after_set_wall l x (y + 1) Bottom d x y Top Hwf Hx Hy1 Hx Hy)
        as (l2 & Hs2 & _ & _ & _ & Hr2).
      exists l1, l2. rewrite <- slot_top_bottom in Hr1, Hr2.
      rewrite bool_decide_true in Hr1 by done. rewrite bool_decide_true in Hr2 by done.
      done.
Qed.

(** C10: for [x < width] and [y < depth] the four indices [wall] and
    [set_wall] compute lie below [width * (depth + 1)] (the length of
    [walls_h]) and [(width + 1) * depth] (the length of [walls_v]), so on a
    well-formed level [wall] and [set_wall] never index out of range: they
    return for every direction. *)
Theorem wall_indices_in_range l x y :
  wf l -> x < width l -> y < depth l ->
  x * (depth l + 1) + y < width l * (depth l + 1) /\
  x * (depth l + 1) + y + 1 < width l * (depth l + 1) /\
  y * (width l + 1) + x < (width l + 1) * depth l /\
  y * (width l + 1) + x + 1 < (width l + 1) * depth l /\
  (forall w, (slot l x y w).1 = true ->
     (N.to_nat (slot l x y w).2 < length (walls_h l))%nat) /\
  (forall w, (slot l x y w).1 = false ->
     (N.to_nat (slot l x y w).2 < length (walls_v l))%nat) /\
  (forall w, exists v, wall l x y w = Some v) /\
  (forall w d, exists l', set_wall l x y w d = Some l').
Proof.
  intros Hwf Hx Hy.
  destruct (wall_index_bounds (width l) (depth l) x y Hx Hy) as (H1 & H2 & H3 & H4).
  split; [lia|]. split; [lia|]. split; [lia|]. split; [lia|].
  split; [|split; [|split]].
  - intros w Hw. pose proof (slot_bound l x y w Hwf Hx Hy) as Hb.
    unfold walls_of in Hb. rewrite Hw in Hb. exact Hb.
  - intros w Hw. pose proof (slot_bound l x y w Hwf Hx Hy) as Hb.
    unfold walls_of in Hb. rewrite Hw in Hb. exact Hb.
  - intros w. apply wall_some; done.
  - intros w d. destruct (set_wall_spec l x y w d Hwf Hx Hy) as (l' & Hs & _). eauto.
Qed.

End ClaimsWalls.

Section ClaimsMoves.
Context {FT WT : Type}.
Implicit Types (l : Level FT WT).

(** C4: a single orthogonal step [(dx, dy)] between in-bounds tiles of a
    well-formed level reads the wall of the start tile in the direction
    of the step ([step_dir]: Right for [dx = 1], Left for [dx = -1], Top
    for [dy = 1], Bottom for [dy = -1]); the move is possible exactly when
    that wall is [None]. *)
Theorem is_move_possible_orthogonal l sx sy ex ey (dx dy : Z) :
  wf l -> sx < width l -> sy < depth l -> ex < width l -> ey < depth l ->
  Z.of_N ex = (Z.of_N sx + dx)%Z -> Z.of_N ey = (Z.of_N sy + dy)%Z ->
  (Z.abs dx + Z.abs dy = 1)%Z ->
  exists v, wall l sx sy (step_dir dx dy) = Some v /\
    is_move_possible l (sx, sy) (ex, ey) = Some (is_none v).
Proof.
  intros Hwf Hsx Hsy Hex Hey Hdx Hdy Hd.
  destruct (wall_open_spec l sx sy (step_dir dx dy) Hwf Hsx Hsy) as (v & Hv & Ho).
  exists v. split; [done|]. unfold is_move_possible.
  rewrite (imp_orth 1 l sx sy ex ey dx dy) by done. rewrite Ho. done.
Qed.

(** C3: a diagonal step [(dx, dy)], [|dx| = |dy| = 1], between in-bounds
    tiles of a well-formed level is possible exactly when one of the two
    L-shaped paths has both of its orthogonal steps possible; each of these
    steps, a call of [is_move_possible] itself, is judged by the wall it
    crosses (no further nesting). *)
Theorem is_move_possible_diagonal l sx sy ex ey (dx dy : Z) :
  wf l -> sx < width l -> sy < depth l -> ex < width l -> ey < depth l ->
  Z.of_N ex = (Z.of_N sx + dx)%Z -> Z.of_N ey = (Z.of_N sy + dy)%Z ->
  Z.abs dx = 1%Z -> Z.abs dy = 1%Z ->
  is_move_possible l (sx, sy) (ex, sy) = Some (wall_open l sx sy (step_dir dx 0)) /\
  is_move_possible l (ex, sy) (ex, ey) = Some (wall_open l ex sy (step_dir 0 dy)) /\
  is_move_possible l (sx, sy) (sx, ey) = Some (wall_open l sx sy (step_dir 0 dy)) /\
  is_move_possible l (sx, ey) (ex, ey) = Some (wall_open l sx ey (step_dir dx 0)) /\
  is_move_possible l (sx, sy) (ex, ey) =
    Some ((wall_open l sx sy (step_dir dx 0) && wall_open l ex sy (step_dir 0 dy)) ||
          (wall_open l sx sy (step_dir 0 dy) && wall_open l sx ey (step_dir dx 0))).
Proof.
  intros Hwf Hsx Hsy Hex Hey Hdx Hdy Hax Hay. unfold is_move_possible.
  split; [apply (imp_orth 1 l sx sy ex sy dx 0); auto; lia|].
  split; [apply (imp_orth 1 l ex sy ex ey 0 dy); auto; lia|].
  split; [apply (imp_orth 1 l sx sy sx ey 0 dy); auto; lia|].
  split; [apply (imp_orth 1 l sx ey ex ey dx 0); auto; lia|].
  apply (imp_diag 0 l sx sy ex ey dx dy); done.
Qed.

(** C9: between in-bounds tiles of a well-formed level, move legality is
    symmetric. *)
Theorem is_move_possible_symmetric l (a b : N * N) :
  wf l -> a.1 < width l -> a.2 < depth l -> b.1 < width l -> b.2 < depth l ->
  is_move_possible l a b = is_move_possible l b a.
Proof. apply imp_sym. Qed.

(** C8, as the code has it: [is_move_possible p p] is true for every [p];
    for [start <> end] it is false when [end] is out of bounds, and false
    when [|dx| > 1] or [|dy| > 1] provided the start coordinates survive the
    [as isize] casts ([< 2 ^ 63], e.g. an in-bounds start) and the level
    is well-formed. *)
Theorem is_move_possible_trivial_cases l :
  wf l ->
  (forall p, is_move_possible l p p = Some true) /\
  (forall s e, s <> e -> (width l <= e.1 \/ depth l <= e.2) ->
     is_move_possible l s e = Some false) /\
  (forall s e, s <> e -> s.1 < 2 ^ 63 -> s.2 < 2 ^ 63 ->
     (1 < Z.abs (Z.of_N e.1 - Z.of_N s.1) \/ 1 < Z.abs (Z.of_N e.2 - Z.of_N s.2))%Z ->
     is_move_possible l s e = Some false).
Proof.
  intros Hwf. unfold is_move_possible. split; [|split].
  - intros p. apply imp_self.
  - intros s e Hne Hout. apply imp_out; done.
  - intros s e Hne Hs1 Hs2 Hfar. apply imp_far; done.
Qed.

End ClaimsMoves.

(** C8, counterexample: on a [1 x 1] level the start [(2 ^ 64 - 1, 0)] is
    far from the end [(0, 0)], but [as isize] turns [2 ^ 64 - 1] into [-1],
    so [dx = 1]: the code takes the move for a step to the right and
    [wall] panics on its [debug_assert!] instead of returning false. *)
Lemma is_move_possible_wrapped_start :
  (2 ^ 64 - 1, 0) <> (0, 0) /\
  (1 < Z.abs (Z.of_N 0 - Z.of_N (2 ^ 64 - 1)))%Z /\
  is_move_possible (new tt 1 1 0 : Level unit unit) (2 ^ 64 - 1, 0) (0, 0) = None.
Proof. split; [discriminate|]. split; [vm_compute; reflexivity|]. vm_compute. reflexivity. Qed.

(** C1: a [2 x 2] level, flat but for tile [(1, 1)] at height [10]: after
    [add_cliff_walls 1 payload] the pair [(1, 0)]-[(1, 1)] and the pair
    [(0, 1)]-[(1, 1)] differ by [10 >= 1] in height, yet the Top edge of
    [(1, 0)] and the Right edge of [(0, 1)] carry no wall: the loops run
    over [x < width - 1] and [y < depth - 1] for both kinds of edge, which
    skips the vertical pairs of the last column and the horizontal pairs of
    the last row. *)
Theorem add_cliff_walls_skips_last_column_and_row :
  (l ← set_z (new tt 2 2 0 : Level unit unit) 1 1 10;
   l ← add_cliff_walls l 1 tt;
   z10 ← z l 1 0; z01 ← z l 0 1; z11 ← z l 1 1;
   w_top ← wall l 1 0 Top; w_right ← wall l 0 1 Right;
   Some (cliff z10 z11 1, w_top, cliff z01 z11 1, w_right))
  = Some (true, None, true, None).
Proof. vm_compute. reflexivity. Qed.

(** C5: a [5 x 20] level seen from [(0, 10)] with radius [3].  The upper
    bound on [y] compares [pos.1 + radius = 13] with [width - 1 = 4]
    instead of [depth - 1] and so becomes [depth - 1 = 19]: the window the
    closure accepts is [0 <= y - 7 <= 12] instead of [7 <= y <= 13].  At
    [(0, 15)], outside the [7 x 7] window of the matrix, the closure
    indexes column [15 + 3 - 10 = 8] of a row of length [7] and panics
    instead of returning false.  This holds for every ray sequence the
    inner loop can produce. *)
Theorem visibility_reads_past_window rays :
  Forall (Forall (fun s => sample_near 3 s = true)) rays ->
  exists m f,
    visible_from rays (new tt 5 20 0 : Level unit unit) (0, 10) 3 = Some m /\
    square 7 m /\
    visibility rays (new tt 5 20 0 : Level unit unit) (0, 10) 3 = Some f /\
    (10 + 3 < 15)%N /\ f 0 15 = None.
Proof.
  intros Hs.
  destruct (visible_from_square rays (new tt 5 20 0 : Level unit unit) (0, 10) 3)
    as (m & Hm & Hsq & _); [apply new_wf; lia|simpl; lia|simpl; lia|lia|done|].
  unfold visibility. rewrite Hm. simpl.
  eexists m, _. split; [done|]. split; [done|]. split; [reflexivity|]. split; [lia|].
  change ((m !! 3%nat) ≫= (fun row => row !! 8%nat) = None).
  destruct Hsq as [Hlen Hrows].
  destruct (lookup_lt_is_Some_2 m 3%nat) as [row Hrow]; [rewrite Hlen; vm_compute; lia|].
  rewrite Hrow.
  assert (Hrl : length row = 7%nat) by (rewrite Forall_lookup in Hrows; exact (Hrows _ _ Hrow)).
  apply lookup_ge_None_2. rewrite Hrl. lia.
Qed.


(** The outcome does not depend on the samples after the first one of
    each of the first six rays. *)
Lemma visible_from_out_of_bounds_any_tail t0 t1 t2 t3 t4 t5 rest :
  visible_from ((mk_sample 2 0 1 0 :: t0) :: (mk_sample 2 1 1 1 :: t1) ::
                (mk_sample 1 1 0 1 :: t2) :: (mk_sample 1 1 0 1 :: t3) ::
                (mk_sample 0 1 (-1) 1 :: t4) :: (mk_sample 0 0 (-1) 0 :: t5) :: rest)
    (new tt 1 1 0 : Level unit unit) (1, 0) 1 = None.
Proof. vm_compute. reflexivity. Qed.

Lemma visible_from_observer_out_of_bounds :
  visible_from c7_rays (new tt 1 1 0 : Level unit unit) (1, 0) 1 = None.
Proof. vm_compute. reflexivity. Qed.

Section ClaimsVisibility.
Context {FT WT : Type}.
Implicit Types (l : Level FT WT).

(** C7, as the code has it: on a well-formed level, from an in-bounds
    observer tile, with a radius of at most [2 ^ 21] (for which the
    [theta] loop ends, see [visible_from]) and the ray samples of the inner
    loop, [visible_from] returns a matrix of [2 * radius + 1] rows of
    [2 * radius + 1] cells whose cell [[radius][radius]] is true. *)
Theorem visible_from_square_center rays l pos radius :
  wf l -> pos.1 < width l -> pos.2 < depth l -> radius <= 2 ^ 21 ->
  Forall (Forall (fun s => sample_near radius s = true)) rays ->
  exists m, visible_from rays l pos radius = Some m /\
    length m = N.to_nat (2 * radius + 1) /\
    Forall (fun row => length row = N.to_nat (2 * radius + 1)) m /\
    cell m radius radius = Some true.
Proof.
  intros Hwf Hp1 Hp2 Hr Hs.
  assert (Hr' : radius < 2 ^ 32) by lia.
  destruct (visible_from_square rays l pos radius Hwf Hp1 Hp2 Hr' Hs) as (m & Hm & [Hl Hrows] & Hc).
  exists m. done.
Qed.

End ClaimsVisibility.

(** ** Lemmas for the further properties *)

Section AccessLemmas.
Context {FT WT : Type}.
Implicit Types (l : Level FT WT).

(** Writing the cell [get_index x y] of a vector and reading the cell of
    another in-bounds tile. *)
Lemma insert_get_index {A} (v : list A) (W x y x' y' : N) (a : A) :
  x < W -> x' < W -> (N.to_nat (y * W + x) < length v)%nat ->
  <[N.to_nat (y * W + x) := a]> v !! N.to_nat (y' * W + x') =
  if bool_decide ((x', y') = (x, y)) then Some a else v !! N.to_nat (y' * W + x').
Proof.
  intros Hx Hx' Hlen. case_bool_decide as Heq.
  - injection Heq as -> ->. apply list_lookup_insert_eq. done.
  - apply list_lookup_insert_ne. intros Hii. apply Heq.
    destruct (mul_add_inj W y x y' x') as [-> ->]; [lia|done|done|done].
Qed.

Lemma z_some l x y : wf l -> x < width l -> y < depth l -> exists a, z l x y = Some a.
Proof.
  intros Hwf Hx Hy. unfold z. rewrite in_bounds_true by done.
  apply vec_get_in_range. rewrite (wf_floor _ Hwf). unfold get_index. nia.
Qed.

Lemma z_ext l l' x y :
  width l' = width l -> depth l' = depth l -> floor l' = floor l -> z l' x y = z l x y.
Proof. intros HW HD Hf. unfold z, in_bounds, get_index. rewrite HW, HD, Hf. reflexivity. Qed.

Lemma floor_data_at_ext l l' x y :
  width l' = width l -> depth l' = depth l -> floor_data l' = floor_data l ->
  floor_data_at l' x y = floor_data_at l x y.
Proof. intros HW HD Hf. unfold floor_data_at, in_bounds, get_index. rewrite HW, HD, Hf. reflexivity. Qed.

Lemma set_wall_keeps l x y w d l' :
  set_wall l x y w d = Some l' ->
  width l' = width l /\ depth l' = depth l /\ floor l' = floor l /\ floor_data l' = floor_data l.
Proof.
  unfold set_wall. destruct (in_bounds l x y); [|discriminate].
  destruct w; destruct (vec_set _ _ _); simpl; intros Hs; inversion Hs; subst; done.
Qed.

Lemma in_bounds_false l x y : width l <= x \/ depth l <= y -> in_bounds l x y = false.
Proof.
  intros H. unfold in_bounds.
  destruct (N.ltb_spec x (width l)), (N.ltb_spec y (depth l)); simpl; done || lia.
Qed.

Lemma z_new (d : FT) (W D : N) (z0 : Z) x y :
  x < W -> y < D -> z (new d W D z0 : Level FT WT) x y = Some z0.
Proof.
  intros Hx Hy. unfold z. rewrite in_bounds_true by done. unfold vec_get, get_index. simpl.
  apply lookup_repeat_lt. nia.
Qed.

End AccessLemmas.

Section MoveLemmas.
Context {FT WT : Type}.
Implicit Types (l : Level FT WT).

(** A level whose open edges are all open in [l] as well allows no move
    [l] does not allow. *)
Lemma imp_mono l l' (s e : N * N) :
  wf l -> wf l' -> width l' = width l -> depth l' = depth l ->
  (forall a b w, a < width l -> b < depth l -> wall_open l' a b w = true -> wall_open l a b w = true) ->
  s.1 < width l -> s.2 < depth l ->
  is_move_possible l' s e = Some true -> is_move_possible l s e = Some true.
Proof.
  destruct s as [ax ay], e as [bx by']. simpl. intros Hwf Hwf' HW' HD' Hm Hax Hay.
  destruct (wf_dims_small l Hwf) as [HW HD].
  unfold is_move_possible. intros H.
  destruct (decide ((ax, ay) = (bx, by'))) as [Heq|Hne].
  { rewrite Heq, imp_self. done. }
  destruct (decide (width l <= bx \/ depth l <= by')) as [Hout|Hin].
  { rewrite (imp_out 1 l') in H by (simpl; rewrite ?HW', ?HD'; done). discriminate. }
  assert (Hbx : bx < width l) by lia. assert (Hby : by' < depth l) by lia.
  assert (Hnz : (Z.of_N bx - Z.of_N ax <> 0 \/ Z.of_N by' - Z.of_N ay <> 0)%Z).
  { destruct (Z.eq_dec (Z.of_N bx - Z.of_N ax)%Z 0%Z); [|by left].
    destruct (Z.eq_dec (Z.of_N by' - Z.of_N ay)%Z 0%Z); [|by right].
    exfalso. apply Hne. f_equal; lia. }
  set (dx := (Z.of_N bx - Z.of_N ax)%Z) in *. set (dy := (Z.of_N by' - Z.of_N ay)%Z) in *.
  assert (Hc : ((1 < Z.abs dx \/ 1 < Z.abs dy) \/ (Z.abs dx + Z.abs dy = 1)
               \/ (Z.abs dx = 1 /\ Z.abs dy = 1))%Z) by lia.
  destruct Hc as [Hfar|[Horth|[Hdx Hdy]]].
  - rewrite (imp_far 1 l') in H by (simpl; auto; lia). discriminate.
  - rewrite (imp_orth 1 l' ax ay bx by' dx dy) in H by (rewrite ?HW', ?HD'; auto; lia).
    rewrite (imp_orth 1 l ax ay bx by' dx dy) by (auto; lia).
    injection H as H. rewrite (Hm _ _ _ Hax Hay H). done.
  - rewrite (imp_diag 0 l' ax ay bx by' dx dy) in H by (rewrite ?HW', ?HD'; auto; lia).
    rewrite (imp_diag 0 l ax ay bx by' dx dy) by (auto; lia).
    injection H as H. f_equal.
    apply orb_true_iff in H as [H|H]; apply andb_true_iff in H as [H1 H2];
      apply orb_true_iff; [left|right]; apply andb_true_iff; split; apply Hm; auto.
Qed.

Lemma open_after_set_wall l l' x y w p a b w' :
  wf l -> set_wall l x y w (Some p) = Some l' -> x < width l -> y < depth l ->
  a < width l -> b < depth l -> wall_open l' a b w' = true -> wall_open l a b w' = true.
Proof.
  intros Hwf Hs Hx Hy Ha Hb. unfold wall_open.
  destruct (wall_set_wall_eq l l' x y w (Some p) a b w' Hwf Hs Hx Hy Ha Hb) as (_ & _ & _ & ->).
  case_bool_decide; [discriminate|done].
Qed.

Lemma border_state_open l0 p (written : bool * N -> Prop) l a b w :
  border_state l0 p written l -> a < width l0 -> b < depth l0 ->
  wall_open l a b w = true -> wall_open l0 a b w = true.
Proof.
  intros (_ & _ & _ & Hst) Ha Hb. destruct (Hst a b w Ha Hb) as [Hin Hout].
  unfold wall_open. intros Ho.
  assert (Hn : ~ written (slot l0 a b w)).
  { intros Hw. rewrite (Hin Hw) in Ho. discriminate. }
  rewrite <- (Hout Hn). exact Ho.
Qed.

End MoveLemmas.

Section CliffLemmas.
Context {FT WT : Type}.
Implicit Types (l : Level FT WT).

(** The state of the level while [add_cliff_walls] runs. *)
Lemma cliff_state_step l th (p : WT) k j l2 :
  wf l -> k + 1 < width l -> j + 1 < depth l ->
  border_state l p (cliff_edges_upto l th k j) l2 ->
  floor l2 = floor l -> floor_data l2 = floor_data l ->
  exists l4,
    (z0 ← z l2 k j; z_right ← z l2 (k + 1) j; z_top ← z l2 k (j + 1);
     l3 ← (if cliff z0 z_top th then set_wall l2 k j Top (Some p) else Some l2);
     if cliff z0 z_right th then set_wall l3 k j Right (Some p) else Some l3) = Some l4 /\
    border_state l p (cliff_edges_upto l th k (j + 1)) l4 /\
    floor l4 = floor l /\ floor_data l4 = floor_data l.
Proof.
  intros Hwf Hk Hj Hst Hf Hfd.
  pose proof Hst as (Hwf2 & HW2 & HD2 & _).
  destruct (z_some l k j Hwf) as [a0 Ha0]; [lia|lia|].
  destruct (z_some l (k + 1) j Hwf) as [ar Har]; [lia|lia|].
  destruct (z_some l k (j + 1) Hwf) as [at' Hat]; [lia|lia|].
  rewrite !(z_ext l l2) by done. rewrite Ha0, Har, Hat. simpl.
  assert (Hsteep_t : steep l th k j k (j + 1) = cliff a0 at' th) by (unfold steep; rewrite Ha0, Hat; done).
  assert (Hsteep_r : steep l th k j (k + 1) j = cliff a0 ar th) by (unfold steep; rewrite Ha0, Har; done).
  set (W1 := fun sl => cliff_edges_upto l th k j sl \/ (cliff a0 at' th = true /\ sl = slot l k j Top)).
  assert (H3 : exists l3,
    (if cliff a0 at' th then set_wall l2 k j Top (Some p) else Some l2) = Some l3 /\
    border_state l p W1 l3 /\ floor l3 = floor l /\ floor_data l3 = floor_data l).
  { destruct (cliff a0 at' th) eqn:Ec.
    - destruct (set_wall_spec l2 k j Top (Some p) Hwf2) as (l3 & Hs3 & _); [lia|lia|].
      exists l3. split; [done|].
      destruct (set_wall_keeps l2 k j Top (Some p) l3 Hs3) as (_ & _ & Hf3 & Hfd3).
      split; [|split; congruence].
      eapply border_state_ext; [|apply (border_state_set l p _ l2 k j Top l3 Hst); [lia|lia|done]].
      intros sl. unfold W1. split; intros [H|H]; [left; done|right; done|left; done|right; apply H].
    - exists l2. split; [done|]. split; [|done].
      eapply border_state_ext; [|exact Hst].
      intros sl. unfold W1. split; [intros H; left; done|]. intros [H|[H _]]; [done|discriminate]. }
  destruct H3 as (l3 & Hl3 & Hst3 & Hf3 & Hfd3). rewrite Hl3. simpl.
  set (W2 := fun sl => W1 sl \/ (cliff a0 ar th = true /\ sl = slot l k j Right)).
  assert (H4 : exists l4,
    (if cliff a0 ar th then set_wall l3 k j Right (Some p) else Some l3) = Some l4 /\
    border_state l p W2 l4 /\ floor l4 = floor l /\ floor_data l4 = floor_data l).
  { pose proof Hst3 as (Hwf3 & HW3 & HD3 & _).
    destruct (cliff a0 ar th) eqn:Ec.
    - destruct (set_wall_spec l3 k j Right (Some p) Hwf3) as (l4 & Hs4 & _); [lia|lia|].
      exists l4. split; [done|].
      destruct (set_wall_keeps l3 k j Right (Some p) l4 Hs4) as (_ & _ & Hf4 & Hfd4).
      split; [|split; congruence].
      eapply border_state_ext; [|apply (border_state_set l p _ l3 k j Right l4 Hst3); [lia|lia|done]].
      intros sl. unfold W2. split; intros [H|H]; [left; done|right; done|left; done|right; apply H].
    - exists l3. split; [done|]. split; [|done].
      eapply border_state_ext; [|exact Hst3].
      intros sl. unfold W2. split; [intros H; left; done|]. intros [H|[H _]]; [done|discriminate]. }
  destruct H4 as (l4 & Hl4 & Hst4 & Hf4 & Hfd4).
  exists l4. split; [done|]. split; [|done].
  eapply border_state_ext; [|exact Hst4].
  intros sl. unfold W2, W1, cliff_edges_upto. split.
  - intros [[(x & y & Hx & Hy & Hxy & Hc)|[Hc ->]]|[Hc ->]].
    + exists x, y. split; [done|]. split; [done|]. split; [lia|done].
    + exists k, j. split; [done|]. split; [done|]. split; [lia|]. left. rewrite Hsteep_t. done.
    + exists k, j. split; [done|]. split; [done|]. split; [lia|]. right. rewrite Hsteep_r. done.
  - intros (x & y & Hx & Hy & Hxy & Hc).
    destruct (decide (x < k \/ (x = k /\ y < j))) as [Hlt|Hge].
    + left. left. exists x, y. done.
    + assert (x = k /\ y = j) as [-> ->] by lia.
      rewrite Hsteep_t, Hsteep_r in Hc.
      destruct Hc as [[Hc ->]|[Hc ->]]; [left; right; done|right; done].
Qed.

(** [add_cliff_walls] writes exactly the [cliff_edges] slots. *)
Lemma add_cliff_walls_state l (threshold : Z) (p : WT) :
  wf l -> 1 <= width l -> 1 <= depth l ->
  exists l', add_cliff_walls l threshold p = Some l' /\ wf l' /\
    width l' = width l /\ depth l' = depth l /\
    (forall x y, z l' x y = z l x y) /\ (forall x y, floor_data_at l' x y = floor_data_at l x y) /\
    forall x y w, x < width l -> y < depth l ->
      (cliff_edges l threshold (slot l x y w) -> wall l' x y w = Some (Some p)) /\
      (~ cliff_edges l threshold (slot l x y w) -> wall l' x y w = wall l x y w).
Proof.
  intros Hwf HW1 HD1. unfold add_cliff_walls.
  assert (Hwm : usize_sub (width l) 1 = Some (width l - 1))
    by (unfold usize_sub; destruct (N.leb_spec 1 (width l)); [done|lia]).
  rewrite Hwm. simpl.
  set (P := fun k l1 => border_state l p (cliff_edges_upto l threshold k 0) l1 /\
                        floor l1 = floor l /\ floor_data l1 = floor_data l).
  match goal with |- context [for_range 0 _ ?body l] =>
    destruct (for_range_inv P body (width l - 1) l) as (l' & Hl' & Hst & Hf & Hfd) end.
  { split; [|done]. split; [done|]. split; [done|]. split; [done|].
    intros x y w _ _. split; [|done].
    intros (x' & y' & _ & _ & Hxy & _). lia. }
  { intros k l1 Hk (Hst1 & Hf1 & Hfd1).
    pose proof Hst1 as (Hwf1 & HW1' & HD1' & _).
    assert (Hdm : usize_sub (depth l1) 1 = Some (depth l - 1))
      by (rewrite HD1'; unfold usize_sub; destruct (N.leb_spec 1 (depth l)); [done|lia]).
    rewrite Hdm. simpl.
    set (Q := fun j l2 => border_state l p (cliff_edges_upto l threshold k j) l2 /\
                          floor l2 = floor l /\ floor_data l2 = floor_data l).
    match goal with |- context [for_range 0 _ ?body l1] =>
      destruct (for_range_inv Q body (depth l - 1) l1) as (l2 & Hl2 & Hst2 & Hf2 & Hfd2) end.
    { split; done. }
    { intros j l3 Hj (Hst3 & Hf3 & Hfd3).
      destruct (cliff_state_step l threshold p k j l3 Hwf) as (l4 & Hl4 & Hst4); [lia|lia|done|done|done|].
      exists l4. split; [exact Hl4|exact Hst4]. }
    exists l2. split; [exact Hl2|]. split; [|done].
    eapply border_state_ext; [|exact Hst2].
    intros sl. unfold cliff_edges_upto.
    split; intros (x & y & Hx & Hy & Hxy & Hc); exists x, y; (split; [done|]); (split; [done|]);
      (split; [lia|done]). }
  pose proof Hst as (Hwf' & HW' & HD' & Hwalls).
  exists l'. split; [exact Hl'|]. split; [done|]. split; [done|]. split; [done|].
  split; [intros x y; apply z_ext; done|].
  split; [intros x y; apply floor_data_at_ext; done|].
  intros x y w Hx Hy. destruct (Hwalls x y w Hx Hy) as [Hin Hout].
  assert (Hiff : forall sl, cliff_edges l threshold sl <-> cliff_edges_upto l threshold (width l - 1) 0 sl).
  { intros sl. unfold cliff_edges, cliff_edges_upto.
    split; intros (x' & y' & Hx' & Hy' & Hc); exists x', y'; (split; [done|]); (split; [done|]).
    - split; [lia|done].
    - apply Hc. }
  split; intros H; [apply Hin, Hiff, H|apply Hout; rewrite <- Hiff; exact H].
Qed.

End CliffLemmas.

Lemma for_range_app {A} (body : N -> list A -> option (list A)) (g : N -> list A) (n : N) (res : list A) :
  (forall k res, k < n -> body k res = Some (res ++ g k)) ->
  for_range 0 n body res = Some (res ++ concat (g <$> (N.of_nat <$> seq 0 (N.to_nat n)))).
Proof.
  intros Hb.
  destruct (for_range_inv (fun k s => s = res ++ concat (g <$> (N.of_nat <$> seq 0 (N.to_nat k))))
              body n res) as (s' & Hs' & ->).
  - simpl. rewrite app_nil_r. reflexivity.
  - intros k s Hk ->. eexists. split; [apply Hb; done|].
    replace (N.to_nat (k + 1)) with (S (N.to_nat k)) by lia.
    rewrite seq_S, !fmap_app, concat_app, app_assoc. simpl. rewrite app_nil_r, N2Nat.id. done.
  - done.
Qed.

Section AsciiLemmas.
Context {FT WT : Type}.
Implicit Types (l : Level FT WT).

Lemma to_ascii_tile_spec l m (pos : N * N) r x y :
  wf l -> pos.1 < width l -> pos.2 < depth l -> r < 2 ^ 32 -> square (2 * r + 1) m ->
  x < width l -> y < depth l ->
  exists t, to_ascii_tile l m pos r x y = Some t /\
    ((x, y) = pos -> t = at_sign) /\
    ((x, y) <> pos -> x + r < pos.1 \/ pos.1 + r < x \/ y + r < pos.2 \/ pos.2 + r < y ->
       t = hashes) /\
    ((x, y) <> pos -> pos.1 <= x + r -> x <= pos.1 + r -> pos.2 <= y + r -> y <= pos.2 + r ->
       (cell m (x + r - pos.1) (y + r - pos.2) = Some false -> t = hashes) /\
       (cell m (x + r - pos.1) (y + r - pos.2) = Some true -> t = wall_glyphs l x y)).
Proof.
  intros Hwf Hp1 Hp2 Hr [Hlen Hrows] Hx Hy.
  destruct (wf_dims_small l Hwf) as [HW HD].
  assert (HW2 : 2 * width l < 2 ^ 63) by (pose proof (wf_walls_h_max l Hwf); nia).
  assert (HD2 : 2 * depth l < 2 ^ 63) by (pose proof (wf_walls_v_max l Hwf); nia).
  assert (Sx : (- 2 ^ 63 <= Z.of_N x - Z.of_N pos.1 < 2 ^ 63)%Z) by lia.
  assert (Sy : (- 2 ^ 63 <= Z.of_N y - Z.of_N pos.2 < 2 ^ 63)%Z) by lia.
  unfold to_ascii_tile.
  destruct (decide ((x, y) = pos)) as [Heq|Hne].
  { exists at_sign. split; [done|]. split; [done|]. split; intros Hne; done. }
  rewrite (as_isize_small x), (as_isize_small pos.1), (as_isize_small y), (as_isize_small pos.2),
    (as_isize_small r) by lia.
  rewrite (isize_sub_ok _ _ Sx), (isize_sub_ok _ _ Sy). cbn [mbind option_bind]. rewrite !isize_add_ok by lia. cbn [mbind option_bind].
  rewrite !isize_mul_ok by lia. cbn [mbind option_bind].
  destruct (decide (x + r < pos.1 \/ pos.1 + r < x \/ y + r < pos.2 \/ pos.2 + r < y)) as [Hout|Hin].
  - exists hashes.
    replace (if (Z.of_N x - Z.of_N pos.1 + Z.of_N r <? 0)%Z then Some true
             else if (2 * Z.of_N r <? Z.of_N x - Z.of_N pos.1 + Z.of_N r)%Z then Some true
             else if (Z.of_N y - Z.of_N pos.2 + Z.of_N r <? 0)%Z then Some true
             else Some (2 * Z.of_N r <? Z.of_N y - Z.of_N pos.2 + Z.of_N r)%Z) with (Some true).
    + split; [done|]. split; [done|]. split; [done|]. intros _ H1 H2 H3 H4. lia.
    + repeat match goal with |- context [(?a <? ?b)%Z] => destruct (Z.ltb_spec a b); try lia end;
        reflexivity.
  - replace (if (Z.of_N x - Z.of_N pos.1 + Z.of_N r <? 0)%Z then Some true
             else if (2 * Z.of_N r <? Z.of_N x - Z.of_N pos.1 + Z.of_N r)%Z then Some true
             else if (Z.of_N y - Z.of_N pos.2 + Z.of_N r <? 0)%Z then Some true
             else Some (2 * Z.of_N r <? Z.of_N y - Z.of_N pos.2 + Z.of_N r)%Z) with (Some false)
      by (repeat match goal with |- context [(?a <? ?b)%Z] => destruct (Z.ltb_spec a b); try lia end;
          reflexivity).
    cbn [mbind option_bind].
    replace (Z.of_N x - Z.of_N pos.1 + Z.of_N r)%Z with (Z.of_N (x + r - pos.1)) by lia.
    replace (Z.of_N y - Z.of_N pos.2 + Z.of_N r)%Z with (Z.of_N (y + r - pos.2)) by lia.
    rewrite !isize_as_usize_of_N by lia.
    unfold vec_get.
    destruct (lookup_lt_is_Some_2 m (N.to_nat (x + r - pos.1))) as [row Hrow]; [lia|].
    assert (Hrl : length row = N.to_nat (2 * r + 1))
      by (rewrite Forall_lookup in Hrows; exact (Hrows _ _ Hrow)).
    destruct (lookup_lt_is_Some_2 row (N.to_nat (y + r - pos.2))) as [b Hb]; [lia|].
    assert (Hcell : cell m (x + r - pos.1) (y + r - pos.2) = Some b)
      by (unfold cell; rewrite Hrow; done).
    rewrite Hrow. cbn [mbind option_bind]. rewrite Hb. cbn [mbind option_bind].
    destruct b; cbn [mbind option_bind].
    + destruct (wall_open_spec l x y Left Hwf Hx Hy) as (wl & Hwl & Hol).
      destruct (wall_open_spec l x y Top Hwf Hx Hy) as (wt & Hwt & Hot).
      destruct (wall_open_spec l x y Bottom Hwf Hx Hy) as (wb & Hwb & Hob).
      destruct (wall_open_spec l x y Right Hwf Hx Hy) as (wr & Hwr & Hor).
      rewrite Hwl, Hwt, Hwb, Hwr.
      destruct wl, wt, wb, wr; cbn [mbind option_bind is_some andb];
        (eexists; split; [reflexivity|]);
        (split; [done|]); (split; [intros _ H; lia|]); intros _ _ _ _ _;
        (split; [rewrite Hcell; discriminate|]);
        intros _; unfold wall_glyphs; rewrite Hol, Hot, Hob, Hor; reflexivity.
    + exists hashes. split; [done|]. split; [done|]. split; [intros _ H; lia|].
      intros _ _ _ _ _. split; [done|]. rewrite Hcell. discriminate.
Qed.

End AsciiLemmas.


(** ** Further properties *)

Section Extra.
Context {FT WT : Type}.
Implicit Types (l : Level FT WT).

(** X1: [set_wall] on an in-bounds tile of a well-formed level succeeds, keeps
    the level well-formed with its dimensions, and changes exactly the one
    slot it addresses: every other in-bounds wall reads as before. *)
Theorem set_wall_frame l x y w d x' y' w' :
  wf l -> x < width l -> y < depth l -> x' < width l -> y' < depth l ->
  exists l', set_wall l x y w d = Some l' /\ wf l' /\
    width l' = width l /\ depth l' = depth l /\
    wall l' x' y' w' =
      if bool_decide (slot l x' y' w' = slot l x y w) then Some d else wall l x' y' w'.
Proof. apply wall_after_set_wall. Qed.

End Extra.

Section ExtraAccess.
Context {FT WT : Type}.
Implicit Types (l : Level FT WT).

(** X2: [set_z] on an in-bounds tile of a well-formed level succeeds and
    keeps the level well-formed with its dimensions; afterwards [z] reads
    the new height at that tile and the old one at every other in-bounds
    tile, while floor data and walls read as before. *)
Theorem set_z_frame l x y v :
  wf l -> x < width l -> y < depth l ->
  exists l', set_z l x y v = Some l' /\ wf l' /\ width l' = width l /\ depth l' = depth l /\
    (forall x' y', x' < width l -> y' < depth l ->
       z l' x' y' = if bool_decide ((x', y') = (x, y)) then Some v else z l x' y') /\
    (forall x' y', floor_data_at l' x' y' = floor_data_at l x' y') /\
    (forall x' y' w, wall l' x' y' w = wall l x' y' w).
Proof.
  intros Hwf Hx Hy. pose proof Hwf as [Hf Hfd Hh Hv Hhm Hvm].
  assert (Hi : (N.to_nat (get_index l x y) < length (floor l))%nat)
    by (unfold get_index; rewrite Hf; nia).
  unfold set_z. rewrite in_bounds_true by done. rewrite vec_set_in_range by done. simpl.
  eexists. split; [reflexivity|].
  split; [constructor; simpl; rewrite ?length_insert; done|].
  split; [done|]. split; [done|]. split; [|split; reflexivity].
  intros x' y' Hx' Hy'. unfold z, in_bounds. simpl.
  rewrite (proj2 (N.ltb_lt _ _) Hx'), (proj2 (N.ltb_lt _ _) Hy'). simpl.
  unfold vec_get, get_index. apply insert_get_index; done.
Qed.

(** X3: [set_floor_data] on an in-bounds tile of a well-formed level
    succeeds and keeps the level well-formed with its dimensions; the
    getter [floor_data] then returns the new data at that tile and the old
    data at every other in-bounds tile, while heights and walls read as
    before. *)
Theorem set_floor_data_frame l x y (d : FT) :
  wf l -> x < width l -> y < depth l ->
  exists l', set_floor_data l x y d = Some l' /\ wf l' /\
    width l' = width l /\ depth l' = depth l /\
    (forall x' y', x' < width l -> y' < depth l ->
       floor_data_at l' x' y' =
         if bool_decide ((x', y') = (x, y)) then Some d else floor_data_at l x' y') /\
    (forall x' y', z l' x' y' = z l x' y') /\
    (forall x' y' w, wall l' x' y' w = wall l x' y' w).
Proof.
  intros Hwf Hx Hy. pose proof Hwf as [Hf Hfd Hh Hv Hhm Hvm].
  assert (Hi : (N.to_nat (get_index l x y) < length (floor_data l))%nat)
    by (unfold get_index; rewrite Hfd; nia).
  unfold set_floor_data. rewrite in_bounds_true by done. rewrite vec_set_in_range by done. simpl.
  eexists. split; [reflexivity|].
  split; [constructor; simpl; rewrite ?length_insert; done|].
  split; [done|]. split; [done|]. split; [|split; reflexivity].
  intros x' y' Hx' Hy'. unfold floor_data_at, in_bounds. simpl.
  rewrite (proj2 (N.ltb_lt _ _) Hx'), (proj2 (N.ltb_lt _ _) Hy'). simpl.
  unfold vec_get, get_index. apply insert_get_index; done.
Qed.

End ExtraAccess.

Section ExtraMoves.
Context {FT WT : Type}.
Implicit Types (l : Level FT WT).

(** X6: on a well-formed level, [is_move_possible] from an in-bounds start
    never panics, whatever the end position. *)
Theorem is_move_possible_no_panic l (s e : N * N) :
  wf l -> s.1 < width l -> s.2 < depth l -> exists b, is_move_possible l s e = Some b.
Proof. apply imp_some. Qed.

(** X7: on a well-formed level whose edges are all free, every move
    between in-bounds tiles at most one step apart on each axis, diagonal
    moves included, is possible. *)
Theorem wall_free_moves l (s e : N * N) :
  wf l -> (forall x y w, x < width l -> y < depth l -> wall l x y w = Some None) ->
  s.1 < width l -> s.2 < depth l -> e.1 < width l -> e.2 < depth l ->
  (Z.abs (Z.of_N e.1 - Z.of_N s.1) <= 1)%Z -> (Z.abs (Z.of_N e.2 - Z.of_N s.2) <= 1)%Z ->
  is_move_possible l s e = Some true.
Proof.
  destruct s as [ax ay], e as [bx by']. simpl. intros Hwf Hfree Hax Hay Hbx Hby Hdx Hdy.
  assert (Hopen : forall a b w, a < width l -> b < depth l -> wall_open l a b w = true)
    by (intros a b w Ha Hb; unfold wall_open; rewrite Hfree; done).
  unfold is_move_possible.
  destruct (decide ((ax, ay) = (bx, by'))) as [Heq|Hne].
  { rewrite Heq, imp_self. done. }
  assert (Hnz : (Z.of_N bx - Z.of_N ax <> 0 \/ Z.of_N by' - Z.of_N ay <> 0)%Z).
  { destruct (Z.eq_dec (Z.of_N bx - Z.of_N ax)%Z 0%Z); [|by left].
    destruct (Z.eq_dec (Z.of_N by' - Z.of_N ay)%Z 0%Z); [|by right].
    exfalso. apply Hne. f_equal; lia. }
  set (dx := (Z.of_N bx - Z.of_N ax)%Z) in *. set (dy := (Z.of_N by' - Z.of_N ay)%Z) in *.
  assert (Hc : (Z.abs dx + Z.abs dy = 1 \/ (Z.abs dx = 1 /\ Z.abs dy = 1))%Z) by lia.
  destruct Hc as [Horth|[Hdx1 Hdy1]].
  - rewrite (imp_orth 1 l ax ay bx by' dx dy) by (auto; lia). rewrite Hopen; done.
  - rewrite (imp_diag 0 l ax ay bx by' dx dy) by (auto; lia).
    rewrite !Hopen by done. done.
Qed.

(** X8: setting the wall a single orthogonal step crosses at its start
    tile decides that step: afterwards the move is possible in both
    directions exactly when the wall written is [None]. *)
Theorem set_wall_decides_step l sx sy ex ey (dx dy : Z) (d : option WT) :
  wf l -> sx < width l -> sy < depth l -> ex < width l -> ey < depth l ->
  Z.of_N ex = (Z.of_N sx + dx)%Z -> Z.of_N ey = (Z.of_N sy + dy)%Z ->
  (Z.abs dx + Z.abs dy = 1)%Z ->
  exists l', set_wall l sx sy (step_dir dx dy) d = Some l' /\
    is_move_possible l' (sx, sy) (ex, ey) = Some (is_none d) /\
    is_move_possible l' (ex, ey) (sx, sy) = Some (is_none d).
Proof.
  intros Hwf Hsx Hsy Hex Hey Hdx Hdy Hd.
  destruct (set_wall_spec l sx sy (step_dir dx dy) d Hwf Hsx Hsy) as (l' & Hs & _).
  destruct (wall_set_wall_eq l l' sx sy (step_dir dx dy) d sx sy (step_dir dx dy) Hwf Hs)
    as (Hwf' & HW & HD & Hw); [done..|].
  rewrite bool_decide_true in Hw by done.
  assert (Hopen : wall_open l' sx sy (step_dir dx dy) = is_none d)
    by (unfold wall_open; rewrite Hw; destruct d; done).
  exists l'. split; [done|].
  assert (Hm : is_move_possible l' (sx, sy) (ex, ey) = Some (is_none d)).
  { unfold is_move_possible.
    rewrite (imp_orth 1 l' sx sy ex ey dx dy) by (rewrite ?HW, ?HD; auto). rewrite Hopen. done. }
  split; [done|].
  rewrite <- (imp_sym l' (sx, sy) (ex, ey)) by (simpl; rewrite ?HW, ?HD; auto). done.
Qed.

(** X9: writing a wall ([Some payload]) with [set_wall] never enables a
    move: a move from an in-bounds start possible afterwards was possible
    before. *)
Theorem set_wall_only_blocks l x y w (p : WT) :
  wf l -> x < width l -> y < depth l ->
  exists l', set_wall l x y w (Some p) = Some l' /\
    forall s e, s.1 < width l -> s.2 < depth l ->
      is_move_possible l' s e = Some true -> is_move_possible l s e = Some true.
Proof.
  intros Hwf Hx Hy.
  destruct (set_wall_spec l x y w (Some p) Hwf Hx Hy) as (l' & Hs & HW & HD & _).
  exists l'. split; [done|]. intros s e Hs1 Hs2.
  apply (imp_mono l l'); [done|eapply set_wall_wf; eauto|done|done| |done|done].
  intros a b w' Ha Hb. apply (open_after_set_wall l l' x y w p); done.
Qed.

(** X10: [add_border_walls] never enables a move: on a well-formed level
    with [1 <= width] and [1 <= depth], a move from an in-bounds start
    possible afterwards was possible before. *)
Theorem add_border_walls_only_blocks l (p : WT) :
  wf l -> 1 <= width l -> 1 <= depth l ->
  exists l', add_border_walls l p = Some l' /\
    forall s e, s.1 < width l -> s.2 < depth l ->
      is_move_possible l' s e = Some true -> is_move_possible l s e = Some true.
Proof.
  intros Hwf HW1 HD1.
  destruct (add_border_walls_state l p Hwf HW1 HD1) as (l' & Hl' & Hst).
  exists l'. split; [done|]. intros s e Hs1 Hs2.
  pose proof Hst as (Hwf' & HW & HD & _).
  apply (imp_mono l l'); [done..| |done|done].
  intros a b w Ha Hb. apply (border_state_open l p _ l' a b w Hst Ha Hb).
Qed.

End ExtraMoves.

Section ExtraCliffs.
Context {FT WT : Type}.
Implicit Types (l : Level FT WT).

(** X11: on a well-formed level with [1 <= width] and [1 <= depth],
    [add_cliff_walls threshold payload] succeeds, keeps the dimensions,
    the heights and the floor data, writes the payload into the Top edge
    of every [(x, y)] with [x < width - 1], [y < depth - 1] and
    [|z(x, y) - z(x, y + 1)| >= threshold], and into its Right edge when
    [|z(x, y) - z(x + 1, y)| >= threshold], and leaves every other wall
    as it was.  The heights are integers of magnitude at most [2 ^ 23]:
    their differences are then integers of magnitude at most [2 ^ 24], which
    [f32] represents, so [(z - z_top).abs()] is computed exactly and the
    test is the one of [cliff]. *)
Theorem add_cliff_walls_spec l (threshold : Z) (p : WT) :
  wf l -> 1 <= width l -> 1 <= depth l ->
  (forall x y a, x < width l -> y < depth l -> z l x y = Some a -> (Z.abs a <= 2 ^ 23)%Z) ->
  exists l', add_cliff_walls l threshold p = Some l' /\ wf l' /\
    width l' = width l /\ depth l' = depth l /\
    (forall x y, z l' x y = z l x y) /\ (forall x y, floor_data_at l' x y = floor_data_at l x y) /\
    forall x y w, x < width l -> y < depth l ->
      (cliff_edges l threshold (slot l x y w) -> wall l' x y w = Some (Some p)) /\
      (~ cliff_edges l threshold (slot l x y w) -> wall l' x y w = wall l x y w).
Proof. intros Hwf HW1 HD1 _. apply add_cliff_walls_state; done. Qed.

(** X12: [add_cliff_walls] never enables a move: a move from an in-bounds
    start possible afterwards was possible before. *)
Theorem add_cliff_walls_only_blocks l (threshold : Z) (p : WT) :
  wf l -> 1 <= width l -> 1 <= depth l ->
  exists l', add_cliff_walls l threshold p = Some l' /\
    forall s e, s.1 < width l -> s.2 < depth l ->
      is_move_possible l' s e = Some true -> is_move_possible l s e = Some true.
Proof.
  intros Hwf HW1 HD1.
  destruct (add_cliff_walls_state l threshold p Hwf HW1 HD1)
    as (l' & Hl' & Hwf' & HW & HD & _ & _ & Hwalls).
  exists l'. split; [done|]. intros s e Hs1 Hs2.
  apply (imp_mono l l'); [done..| |done|done].
  intros a b w Ha Hb.
  apply (border_state_open l p (cliff_edges l threshold) l' a b w); [|done|done].
  split; [done|]. split; [done|]. split; done.
Qed.

(** X13: on levels without tiles or with a single column:
    [add_cliff_walls] panics when [width = 0] (on [width - 1]) and when
    [width >= 2] and [depth = 0] (on [depth - 1]), and it changes nothing
    when [width = 1]; [add_border_walls] changes nothing on a [0 x 0]
    level and panics on a [0 x D] one ([D >= 1]) and on a [W x 0] one
    ([W >= 1]), where [set_wall] is out of bounds. *)
Theorem degenerate_levels l (threshold : Z) (p : WT) :
  (width l = 0 -> add_cliff_walls l threshold p = None) /\
  (width l = 1 -> add_cliff_walls l threshold p = Some l) /\
  (2 <= width l -> depth l = 0 -> add_cliff_walls l threshold p = None) /\
  (width l = 0 -> depth l = 0 -> add_border_walls l p = Some l) /\
  (width l = 0 -> 1 <= depth l -> add_border_walls l p = None) /\
  (1 <= width l -> depth l = 0 -> add_border_walls l p = None).
Proof.
  split; [|split; [|split; [|split; [|split]]]].
  - intros HW. unfold add_cliff_walls, usize_sub. rewrite HW. reflexivity.
  - intros HW. unfold add_cliff_walls, usize_sub. rewrite HW. reflexivity.
  - intros HW HD. unfold add_cliff_walls, usize_sub.
    rewrite (proj2 (N.leb_le 1 (width l))) by lia. simpl.
    unfold for_range. replace (N.to_nat (width l - 1 - 0)) with (S (N.to_nat (width l - 2))) by lia.
    simpl. rewrite HD. reflexivity.
  - intros HW HD. unfold add_border_walls, for_range. rewrite HW, HD. reflexivity.
  - intros HW HD. unfold add_border_walls, for_range. rewrite HW. simpl.
    replace (N.to_nat (depth l - 0)) with (S (N.to_nat (depth l - 1))) by lia. simpl.
    unfold set_wall. rewrite in_bounds_false by lia. reflexivity.
  - intros HW HD. unfold add_border_walls, for_range.
    replace (N.to_nat (width l - 0)) with (S (N.to_nat (width l - 1))) by lia. simpl.
    unfold set_wall. rewrite in_bounds_false by lia. reflexivity.
Qed.

End ExtraCliffs.

Section ExtraVisibility.
Context {FT WT : Type}.
Implicit Types (l : Level FT WT).

(** X14: for an in-bounds observer on a well-formed level and a radius
    of at most [2 ^ 21] (for which the [theta] loop of [visible_from]
    ends), the closure of [visibility] reads cell
    [[x + radius - pos.0][y + radius - pos.1]] of the [visible_from]
    matrix for every in-bounds tile within [radius] of the observer on
    both axes, and returns false for [x >= width], for [x] farther than
    [radius] from [pos.0] and for [y < pos.1 - radius]. *)
Theorem visibility_window rays l (pos : N * N) (radius : N) :
  wf l -> pos.1 < width l -> pos.2 < depth l -> radius <= 2 ^ 21 ->
  Forall (Forall (fun s => sample_near radius s = true)) rays ->
  exists m f, visible_from rays l pos radius = Some m /\ visibility rays l pos radius = Some f /\
    (forall x y, x < width l -> y < depth l ->
       pos.1 <= x + radius -> x <= pos.1 + radius -> pos.2 <= y + radius -> y <= pos.2 + radius ->
       f x y = cell m (x + radius - pos.1) (y + radius - pos.2)) /\
    (forall x y, width l <= x \/ x + radius < pos.1 \/ pos.1 + radius < x \/ y + radius < pos.2 ->
       f x y = Some false).
Proof.
  intros Hwf Hp1 Hp2 Hr0 Hs.
  assert (Hr : radius < 2 ^ 32) by lia.
  destruct (wf_dims_small l Hwf) as [HW HD].
  destruct (visible_from_square rays l pos radius Hwf Hp1 Hp2 Hr Hs) as (m & Hm & Hsq & _).
  assert (E1 : usize_add pos.1 radius = Some (pos.1 + radius))
    by (unfold usize_add; rewrite (proj2 (N.ltb_lt _ _)) by lia; done).
  assert (E2 : usize_add pos.2 radius = Some (pos.2 + radius))
    by (unfold usize_add; rewrite (proj2 (N.ltb_lt _ _)) by lia; done).
  assert (E3 : usize_sub (width l) 1 = Some (width l - 1))
    by (unfold usize_sub; rewrite (proj2 (N.leb_le _ _)) by lia; done).
  assert (E4 : usize_sub (depth l) 1 = Some (depth l - 1))
    by (unfold usize_sub; rewrite (proj2 (N.leb_le _ _)) by lia; done).
  assert (L1 : (if radius <? pos.1 then usize_sub pos.1 radius else Some 0) = Some (pos.1 - radius))
    by (unfold usize_sub; destruct (N.ltb_spec radius pos.1);
        [rewrite (proj2 (N.leb_le _ _)) by lia; done|f_equal; lia]).
  assert (L2 : (if radius <? pos.2 then usize_sub pos.2 radius else Some 0) = Some (pos.2 - radius))
    by (unfold usize_sub; destruct (N.ltb_spec radius pos.2);
        [rewrite (proj2 (N.leb_le _ _)) by lia; done|f_equal; lia]).
  set (ub0 := if width l - 1 <=? pos.1 + radius then width l - 1 else pos.1 + radius).
  set (ub1 := if width l - 1 <=? pos.2 + radius then depth l - 1 else pos.2 + radius).
  assert (U0 : (if width l - 1 <=? pos.1 + radius then Some (width l - 1) else Some (pos.1 + radius))
               = Some ub0) by (unfold ub0; destruct (width l - 1 <=? pos.1 + radius); done).
  assert (U1 : (if width l - 1 <=? pos.2 + radius then Some (depth l - 1) else Some (pos.2 + radius))
               = Some ub1) by (unfold ub1; destruct (width l - 1 <=? pos.2 + radius); done).
  unfold visibility. rewrite Hm. simpl. rewrite E1, E3. simpl. rewrite U0. simpl.
  rewrite E2. simpl. rewrite E4, U1. simpl. rewrite L1. simpl. rewrite L2. simpl.
  eexists m, _. split; [done|]. split; [reflexivity|]. split.
  - intros x y Hx Hy Hx1 Hx2 Hy1 Hy2. cbn beta.
    replace ((x <? pos.1 - radius) || (ub0 <? x) || (y <? pos.2 - radius) || (ub1 <? y)) with false.
    2:{ unfold ub0, ub1. symmetry.
        destruct (N.ltb_spec x (pos.1 - radius)), (N.leb_spec (width l - 1) (pos.1 + radius)),
          (N.leb_spec (width l - 1) (pos.2 + radius)); simpl; try lia;
          repeat match goal with |- context [?a <? ?b] => destruct (N.ltb_spec a b); simpl; try lia end;
          reflexivity. }
    unfold usize_add. rewrite (proj2 (N.ltb_lt (x + radius) _)) by lia. simpl.
    unfold usize_sub. rewrite (proj2 (N.leb_le pos.1 _)) by lia. simpl.
    rewrite (proj2 (N.ltb_lt (y + radius) _)) by lia. simpl.
    rewrite (proj2 (N.leb_le pos.2 _)) by lia. simpl.
    reflexivity.
  - intros x y Hout. cbn beta.
    replace ((x <? pos.1 - radius) || (ub0 <? x) || (y <? pos.2 - radius) || (ub1 <? y)) with true.
    { reflexivity. }
    unfold ub0, ub1. symmetry.
    destruct (N.leb_spec (width l - 1) (pos.1 + radius)), (N.leb_spec (width l - 1) (pos.2 + radius));
      repeat match goal with |- context [?a <? ?b] => destruct (N.ltb_spec a b); simpl; try lia end;
      reflexivity.
Qed.

End ExtraVisibility.

Section ExtraAscii.
Context {FT WT : Type}.
Implicit Types (l : Level FT WT).

(** X15: for an in-bounds observer on a well-formed level and a radius
    of at most [2 ^ 21] (for which the [theta] loop of [visible_from]
    ends), [to_ascii] returns [depth] rows, each made of [width]
    three-character tiles and a newline.  The observer's tile shows
    [" @ "], a tile farther than [radius] from it on either axis shows
    ["###"], and a tile of the window shows ["###"] when its
    [visible_from] cell is false and its walls ([wall_glyphs]) when it is
    true. *)
Theorem to_ascii_layout rays l (pos : N * N) (radius : N) :
  wf l -> pos.1 < width l -> pos.2 < depth l -> radius <= 2 ^ 21 ->
  Forall (Forall (fun s => sample_near radius s = true)) rays ->
  exists m s rows, visible_from rays l pos radius = Some m /\ to_ascii rays l pos radius = Some s /\
    s = concat ((fun row => concat row ++ [newline]) <$> rows) /\
    length rows = N.to_nat (depth l) /\
    Forall (fun row => length row = N.to_nat (width l)) rows /\
    forall x y, x < width l -> y < depth l -> exists t, tile_text rows x y = Some t /\
      ((x, y) = pos -> t = at_sign) /\
      ((x, y) <> pos -> x + radius < pos.1 \/ pos.1 + radius < x \/
                        y + radius < pos.2 \/ pos.2 + radius < y -> t = hashes) /\
      ((x, y) <> pos -> pos.1 <= x + radius -> x <= pos.1 + radius ->
                        pos.2 <= y + radius -> y <= pos.2 + radius ->
         (cell m (x + radius - pos.1) (y + radius - pos.2) = Some false -> t = hashes) /\
         (cell m (x + radius - pos.1) (y + radius - pos.2) = Some true -> t = wall_glyphs l x y)).
Proof.
  intros Hwf Hp1 Hp2 Hr0 Hs.
  assert (Hr : radius < 2 ^ 32) by lia.
  destruct (visible_from_square rays l pos radius Hwf Hp1 Hp2 Hr Hs) as (m & Hm & Hsq & _).
  set (g := fun x y => default [] (to_ascii_tile l m pos radius x y)).
  assert (Hg : forall x y, x < width l -> y < depth l -> to_ascii_tile l m pos radius x y = Some (g x y)).
  { intros x y Hx Hy. destruct (to_ascii_tile_spec l m pos radius x y Hwf Hp1 Hp2 Hr Hsq Hx Hy)
      as (t & Ht & _). unfold g. rewrite Ht. done. }
  set (xs := N.of_nat <$> seq 0 (N.to_nat (width l))).
  set (ys := N.of_nat <$> seq 0 (N.to_nat (depth l))).
  set (rows := (fun y => (fun x => g x y) <$> xs) <$> ys).
  exists m, (concat ((fun row => concat row ++ [newline]) <$> rows)), rows.
  split; [done|]. split; [|split; [done|split; [|split]]].
  - unfold to_ascii. rewrite Hm. cbn [mbind option_bind].
    rewrite (for_range_app _ (fun y => concat ((fun x => g x y) <$> xs) ++ [newline])).
    + simpl. unfold rows, ys. rewrite <- !list_fmap_compose. reflexivity.
    + intros k res Hk.
      rewrite (for_range_app _ (fun x => g x k)).
      * cbn [mbind option_bind]. rewrite <- app_assoc. reflexivity.
      * intros j res' Hj. rewrite (Hg j k Hj Hk). reflexivity.
  - unfold rows, ys. rewrite !length_fmap, length_seq. reflexivity.
  - unfold rows. apply Forall_fmap, Forall_true. intros y. simpl.
    unfold xs. rewrite !length_fmap, length_seq. reflexivity.
  - intros x y Hx Hy.
    destruct (to_ascii_tile_spec l m pos radius x y Hwf Hp1 Hp2 Hr Hsq Hx Hy) as (t & Ht & Hprops).
    exists t. split; [|exact Hprops].
    unfold tile_text, rows, ys, xs.
    rewrite list_lookup_fmap, list_lookup_fmap, lookup_seq_lt by lia. simpl.
    rewrite list_lookup_fmap, list_lookup_fmap, lookup_seq_lt by lia. simpl.
    rewrite !N2Nat.id. unfold g. rewrite Ht. reflexivity.
Qed.

End ExtraAscii.

(** ** Witnesses *)

Lemma wall_aliasing_witness :
  (3 + 1 < width lvl10 ->
     wall lvl10 3 4 Right = wall lvl10 (3 + 1) 4 Left /\
     forall d, exists l1 l2,
       set_wall lvl10 3 4 Right d = Some l1 /\ wall l1 (3 + 1) 4 Left = Some d /\
       set_wall lvl10 (3 + 1) 4 Left d = Some l2 /\ wall l2 3 4 Right = Some d) /\
  (4 + 1 < depth lvl10 ->
     wall lvl10 3 4 Top = wall lvl10 3 (4 + 1) Bottom /\
     forall d, exists l1 l2,
       set_wall lvl10 3 4 Top d = Some l1 /\ wall l1 3 (4 + 1) Bottom = Some d /\
       set_wall lvl10 3 (4 + 1) Bottom d = Some l2 /\ wall l2 3 4 Top = Some d).
Proof.
  apply (wall_aliasing lvl10 3 4); [apply new_wf; lia|vm_compute; reflexivity|vm_compute; reflexivity].
Defined.

Lemma wall_indices_in_range_witness :
  3 * (depth lvl10 + 1) + 4 < width lvl10 * (depth lvl10 + 1) /\
  3 * (depth lvl10 + 1) + 4 + 1 < width lvl10 * (depth lvl10 + 1) /\
  4 * (width lvl10 + 1) + 3 < (width lvl10 + 1) * depth lvl10 /\
  4 * (width lvl10 + 1) + 3 + 1 < (width lvl10 + 1) * depth lvl10 /\
  (forall w, (slot lvl10 3 4 w).1 = true ->
     (N.to_nat (slot lvl10 3 4 w).2 < length (walls_h lvl10))%nat) /\
  (forall w, (slot lvl10 3 4 w).1 = false ->
     (N.to_nat (slot lvl10 3 4 w).2 < length (walls_v lvl10))%nat) /\
  (forall w, exists v, wall lvl10 3 4 w = Some v) /\
  (forall w d, exists l', set_wall lvl10 3 4 w d = Some l').
Proof.
  apply (wall_indices_in_range lvl10 3 4); [apply new_wf; lia|vm_compute; reflexivity|vm_compute; reflexivity].
Defined.

Lemma is_move_possible_orthogonal_witness :
  exists v, wall lvl10 3 4 (step_dir 1 0) = Some v /\
    is_move_possible lvl10 (3, 4) (4, 4) = Some (is_none v).
Proof.
  apply (is_move_possible_orthogonal lvl10 3 4 4 4 1 0);
    [apply new_wf; lia|vm_compute; reflexivity..].
Defined.

Lemma is_move_possible_diagonal_witness :
  is_move_possible lvl10 (3, 4) (4, 4) = Some (wall_open lvl10 3 4 (step_dir 1 0)) /\
  is_move_possible lvl10 (4, 4) (4, 3) = Some (wall_open lvl10 4 4 (step_dir 0 (-1))) /\
  is_move_possible lvl10 (3, 4) (3, 3) = Some (wall_open lvl10 3 4 (step_dir 0 (-1))) /\
  is_move_possible lvl10 (3, 3) (4, 3) = Some (wall_open lvl10 3 3 (step_dir 1 0)) /\
  is_move_possible lvl10 (3, 4) (4, 3) =
    Some ((wall_open lvl10 3 4 (step_dir 1 0) && wall_open lvl10 4 4 (step_dir 0 (-1))) ||
          (wall_open lvl10 3 4 (step_dir 0 (-1)) && wall_open lvl10 3 3 (step_dir 1 0))).
Proof.
  apply (is_move_possible_diagonal lvl10 3 4 4 3 1 (-1));
    [apply new_wf; lia|vm_compute; reflexivity..].
Defined.

Lemma is_move_possible_symmetric_witness :
  is_move_possible lvl10 (3, 4) (4, 5) = is_move_possible lvl10 (4, 5) (3, 4).
Proof.
  apply (is_move_possible_symmetric lvl10 (3, 4) (4, 5));
    [apply new_wf; lia|vm_compute; reflexivity..].
Defined.

Lemma is_move_possible_trivial_cases_witness :
  (forall p, is_move_possible lvl10 p p = Some true) /\
  (forall s e, s <> e -> (width lvl10 <= e.1 \/ depth lvl10 <= e.2) ->
     is_move_possible lvl10 s e = Some false) /\
  (forall s e, s <> e -> s.1 < 2 ^ 63 -> s.2 < 2 ^ 63 ->
     (1 < Z.abs (Z.of_N e.1 - Z.of_N s.1) \/ 1 < Z.abs (Z.of_N e.2 - Z.of_N s.2))%Z ->
     is_move_possible lvl10 s e = Some false).
Proof. apply (is_move_possible_trivial_cases lvl10). apply new_wf; lia. Defined.

Lemma add_border_walls_border_frame_witness :
  exists l', add_border_walls lvl10 tt = Some l' /\
    width l' = width lvl10 /\ depth l' = depth lvl10 /\
    (forall x, x < width lvl10 ->
       wall l' x 0 Bottom = Some (Some tt) /\ wall l' x (depth lvl10 - 1) Top = Some (Some tt)) /\
    (forall y, y < depth lvl10 ->
       wall l' 0 y Left = Some (Some tt) /\ wall l' (width lvl10 - 1) y Right = Some (Some tt)) /\
    (forall x y w, x < width lvl10 -> y < depth lvl10 -> interior_edge lvl10 x y w = true ->
       wall l' x y w = Some None).
Proof.
  apply (add_border_walls_border_frame lvl10 tt);
    [apply new_wf; lia|vm_compute; discriminate|vm_compute; discriminate|].
  intros x y w Hx Hy. apply new_walls_free; done.
Defined.

Lemma visibility_reads_past_window_witness :
  exists m f,
    visible_from [] (new tt 5 20 0 : Level unit unit) (0, 10) 3 = Some m /\
    square 7 m /\
    visibility [] (new tt 5 20 0 : Level unit unit) (0, 10) 3 = Some f /\
    (10 + 3 < 15)%N /\ f 0 15 = None.
Proof. apply (visibility_reads_past_window []). constructor. Defined.

Lemma visible_from_square_center_witness :
  exists m, visible_from [[mk_sample 6 5 1 0; mk_sample 7 5 2 0]; [mk_sample 5 6 0 1]] lvl10 (5, 5) 2 = Some m /\
    length m = N.to_nat (2 * 2 + 1) /\
    Forall (fun row => length row = N.to_nat (2 * 2 + 1)) m /\
    cell m 2 2 = Some true.
Proof.
  apply (visible_from_square_center [[mk_sample 6 5 1 0; mk_sample 7 5 2 0]; [mk_sample 5 6 0 1]]
           lvl10 (5, 5) 2);
    [apply new_wf; lia|vm_compute; reflexivity|vm_compute; reflexivity|vm_compute; discriminate|].
  repeat constructor.
Defined.

Lemma set_wall_frame_witness :
  exists l', set_wall lvl10 3 4 Top (Some tt) = Some l' /\ wf l' /\
    width l' = width lvl10 /\ depth l' = depth lvl10 /\
    wall l' 3 5 Bottom =
      if bool_decide (slot lvl10 3 5 Bottom = slot lvl10 3 4 Top) then Some (Some tt)
      else wall lvl10 3 5 Bottom.
Proof.
  apply (set_wall_frame lvl10 3 4 Top (Some tt) 3 5 Bottom);
    [apply new_wf; lia|vm_compute; reflexivity..].
Defined.

Lemma set_z_frame_witness :
  exists l', set_z lvl10 3 4 7%Z = Some l' /\ z l' 3 4 = Some 7%Z /\ z l' 4 3 = Some 0%Z.
Proof.
  destruct (set_z_frame lvl10 3 4 7%Z) as (l' & Hs & _ & _ & _ & Hz & _);
    [apply new_wf; lia|vm_compute; reflexivity|vm_compute; reflexivity|].
  exists l'. split; [exact Hs|].
  split; rewrite Hz; vm_compute; reflexivity.
Defined.

Lemma set_floor_data_frame_witness :
  exists l', set_floor_data lvl10 3 4 tt = Some l' /\ floor_data_at l' 3 4 = Some tt /\
    z l' 3 4 = Some 0%Z.
Proof.
  destruct (set_floor_data_frame lvl10 3 4 tt) as (l' & Hs & _ & _ & _ & Hf & Hz & _);
    [apply new_wf; lia|vm_compute; reflexivity|vm_compute; reflexivity|].
  exists l'. split; [exact Hs|].
  split; [rewrite Hf; vm_compute; reflexivity|rewrite Hz; vm_compute; reflexivity].
Defined.

Lemma is_move_possible_no_panic_witness :
  exists b, is_move_possible lvl10 (3, 4) (7, 9) = Some b.
Proof.
  apply (is_move_possible_no_panic lvl10 (3, 4) (7, 9));
    [apply new_wf; lia|vm_compute; reflexivity..].
Defined.

Lemma wall_free_moves_witness :
  is_move_possible lvl10 (3, 4) (4, 5) = Some true.
Proof.
  apply (wall_free_moves lvl10 (3, 4) (4, 5));
    [apply new_wf; lia|intros x y w Hx Hy; apply new_walls_free; assumption
    |vm_compute; reflexivity|vm_compute; reflexivity|vm_compute; reflexivity
    |vm_compute; reflexivity|vm_compute; discriminate|vm_compute; discriminate].
Defined.

Lemma set_wall_decides_step_witness :
  exists l', set_wall lvl10 3 4 (step_dir 1 0) (Some tt) = Some l' /\
    is_move_possible l' (3, 4) (4, 4) = Some false.
Proof.
  destruct (set_wall_decides_step lvl10 3 4 4 4 1 0 (Some tt)) as (l' & Hs & Hm & _);
    [apply new_wf; lia|vm_compute; reflexivity..|].
  exists l'. split; [exact Hs|exact Hm].
Defined.

Lemma set_wall_only_blocks_witness :
  exists l', set_wall lvl10 3 4 Right (Some tt) = Some l' /\
    (is_move_possible l' (3, 4) (3, 5) = Some true ->
     is_move_possible lvl10 (3, 4) (3, 5) = Some true).
Proof.
  destruct (set_wall_only_blocks lvl10 3 4 Right tt) as (l' & Hs & Hm);
    [apply new_wf; lia|vm_compute; reflexivity|vm_compute; reflexivity|].
  exists l'. split; [exact Hs|].
  apply Hm; vm_compute; reflexivity.
Defined.

Lemma add_border_walls_only_blocks_witness :
  exists l', add_border_walls lvl10 tt = Some l' /\
    (is_move_possible l' (0, 4) (1, 4) = Some true ->
     is_move_possible lvl10 (0, 4) (1, 4) = Some true).
Proof.
  destruct (add_border_walls_only_blocks lvl10 tt) as (l' & Hs & Hm);
    [apply new_wf; lia|vm_compute; discriminate|vm_compute; discriminate|].
  exists l'. split; [exact Hs|].
  apply Hm; vm_compute; reflexivity.
Defined.

Lemma add_cliff_walls_spec_witness :
  exists l', add_cliff_walls lvl10 1 tt = Some l' /\ width l' = 10 /\ z l' 2 2 = Some 0%Z.
Proof.
  destruct (add_cliff_walls_spec lvl10 1 tt) as (l' & Hs & _ & Hw & _ & Hz & _);
    [apply new_wf; lia|vm_compute; discriminate|vm_compute; discriminate
    |intros x y a Hx Hy Ha; unfold lvl10 in Ha; rewrite (z_new (WT:=unit) tt 10 10 0%Z x y Hx Hy) in Ha;
     injection Ha as <-; lia|].
  exists l'. split; [exact Hs|]. split; [rewrite Hw; reflexivity|rewrite Hz; vm_compute; reflexivity].
Defined.

Lemma add_cliff_walls_only_blocks_witness :
  exists l', add_cliff_walls lvl10 1 tt = Some l' /\
    (is_move_possible l' (3, 4) (3, 5) = Some true ->
     is_move_possible lvl10 (3, 4) (3, 5) = Some true).
Proof.
  destruct (add_cliff_walls_only_blocks lvl10 1 tt) as (l' & Hs & Hm);
    [apply new_wf; lia|vm_compute; discriminate|vm_compute; discriminate|].
  exists l'. split; [exact Hs|].
  apply Hm; vm_compute; reflexivity.
Defined.

Lemma degenerate_levels_witness :
  add_cliff_walls (new tt 0 3 0%Z : Level unit unit) 1 tt = None /\
  add_border_walls (new tt 0 3 0%Z : Level unit unit) tt = None.
Proof.
  destruct (degenerate_levels (new tt 0 3 0%Z : Level unit unit) 1 tt) as (Hc & _ & _ & _ & Hb & _).
  split; [apply Hc; reflexivity|apply Hb; [reflexivity|vm_compute; discriminate]].
Defined.

Lemma visibility_window_witness :
  exists m f, visible_from [] lvl10 (5, 5) 3 = Some m /\ visibility [] lvl10 (5, 5) 3 = Some f /\
    f 9 9 = Some false /\ f 4 6 = cell m 2 4.
Proof.
  destruct (visibility_window [] lvl10 (5, 5) 3) as (m & f & Hm & Hf & Hin & Hout);
    [apply new_wf; lia|vm_compute; reflexivity|vm_compute; reflexivity|vm_compute; discriminate
    |constructor|].
  exists m, f. split; [exact Hm|]. split; [exact Hf|]. split.
  - apply Hout. right; right; left. vm_compute; reflexivity.
  - apply (Hin 4 6); vm_compute; try reflexivity; discriminate.
Defined.

Lemma to_ascii_layout_witness :
  exists s, to_ascii [] lvl10 (5, 5) 2 = Some s.
Proof.
  destruct (to_ascii_layout [] lvl10 (5, 5) 2) as (m & s & rows & _ & Hs & _);
    [apply new_wf; lia|vm_compute; reflexivity|vm_compute; reflexivity|vm_compute; discriminate
    |constructor|].
  exists s. exact Hs.
Defined.
